(** * Jharkhand tourism backend: booking counter, sanitizer and pagination

    A shallow embedding of three pieces of the TypeScript backend:

    - the Counter model: [counterSchema], [CounterModel] and
      [getNextBookingNumber];
    - [sanitizeString] of [middleware/validation.middleware.ts];
    - [paginationQuerySchema] of [validation/schemas/common.schema.ts].

    Part III adds [sanitizeObject], [validate] and [validateMultiple] of the
    same middleware, [mongoIdSchema] and [searchQuerySchema], and the read,
    update and delete handlers of the homestays controller.

    JavaScript strings are sequences of UTF-16 code units, modelled as
    [list N].  Integer-valued JavaScript numbers (the counter, the calendar
    year, the result of [parseInt]) are modelled as [Z]; this is exact for
    magnitudes below 2^53, where JavaScript arithmetic, comparison and
    [Number.prototype.toString] agree with the integers.  The MongoDB
    collection [counters] is a finite map from [_id] to the [seq] field. *)

From Stdlib Require Import ZArith NArith Ascii String Sorted Permutation Lia.
From stdpp Require Import gmap strings list.

Set Default Proof Using "Type".
Set Warnings "-register-all".

(* ====================================================================== *)
(** * Part I: definitions *)
(* ====================================================================== *)

(** ** JavaScript strings *)

Abbreviation jsstring := (list N).

(** An ASCII literal as a sequence of code units. *)
Definition lit (s : string) : jsstring := N_of_ascii <$> list_ascii_of_string s.

Fixpoint dropWhile {A} (p : A -> bool) (l : list A) : list A :=
  match l with
  | [] => []
  | x :: r => if p x then dropWhile p r else l
  end.

Fixpoint takeWhile {A} (p : A -> bool) (l : list A) : list A :=
  match l with
  | [] => []
  | x :: r => if p x then x :: takeWhile p r else []
  end.

(** ECMAScript [WhiteSpace] and [LineTerminator] code points: the characters
    removed by [String.prototype.trim] and skipped by [parseInt]. *)
Definition isStrWhiteSpaceChar (c : N) : bool :=
  bool_decide (c ∈ [9; 10; 11; 12; 13; 32; 160; 5760; 8232; 8233; 8239; 8287;
                    12288; 65279]%N)
  || ((8192 <=? c)%N && (c <=? 8202)%N).

Definition String_trim (s : jsstring) : jsstring :=
  rev (dropWhile isStrWhiteSpaceChar (rev (dropWhile isStrWhiteSpaceChar s))).

(** [s.replace(/c/g, replacement)] for a pattern that is one literal code
    unit and a replacement without [$] patterns. *)
Definition String_replace_all (pat : N) (replacement s : jsstring) : jsstring :=
  flat_map (fun c => if (c =? pat)%N then replacement else [c]) s.

(** [s.padStart(maxLength, fillString)]. *)
Definition String_padStart (s : jsstring) (maxLength : nat) (fillString : jsstring)
  : jsstring :=
  if decide (maxLength <= length s)%nat then s
  else match fillString with
       | [] => s
       | _ :: _ =>
           let fillLen := (maxLength - length s)%nat in
           take fillLen (concat (replicate fillLen fillString)) ++ s
       end.

(** ** Integer-valued numbers as strings *)

Definition isDecimalDigit (c : N) : bool := ((48 <=? c) && (c <=? 57))%N.

(** Decimal digits of [n], most significant first; [fuel] bounds the number
    of digits produced. *)
Fixpoint digitsFrom (fuel : nat) (n : N) (acc : jsstring) : jsstring :=
  match fuel with
  | O => acc
  | S fuel' =>
      let acc' := (48 + n mod 10)%N :: acc in
      if (n / 10 =? 0)%N then acc' else digitsFrom fuel' (n / 10) acc'
  end.

Definition decimalDigits (n : N) : jsstring :=
  digitsFrom (S (N.to_nat (N.log2 n))) n [].

(** [Number.prototype.toString()] on an integer. This is the text
    JavaScript produces for a safe integer; from 10^21 on JavaScript writes
    an exponent, and between 2^53 and 10^21 not every integer is a number.
    Statements that depend on the digits are made for safe integers. *)
Definition Number_toString (v : Z) : jsstring :=
  if (v <? 0)%Z then 45%N :: decimalDigits (Z.abs_N v)
  else decimalDigits (Z.to_N v).

(** The mathematical value of a sequence of decimal digits. *)
Definition mathInt (ds : jsstring) : N :=
  foldl (fun acc c => (10 * acc + (c - 48))%N) 0%N ds.

(** [parseInt(input, 10)]; [None] is [NaN]. The result is the integer the
    digits denote, which is what [parseInt] returns when that integer is a
    safe integer; beyond, [parseInt] returns the nearest binary64 number. *)
Definition parseInt10 (input : jsstring) : option Z :=
  let S := dropWhile isStrWhiteSpaceChar input in
  let sign := match S with 45%N :: _ => (-1)%Z | _ => 1%Z end in
  let S' := match S with
            | 43%N :: r => r
            | 45%N :: r => r
            | _ => S
            end in
  match takeWhile isDecimalDigit S' with
  | [] => None
  | d :: ds => Some (sign * Z.of_N (mathInt (d :: ds)))%Z
  end.

(** ** Errors and settled promises *)

Record JSError := { name : jsstring; message : jsstring }.

Inductive Settled (A : Type) : Type :=
| Fulfilled (value : A)
| Rejected (reason : JSError).
Arguments Fulfilled {A} value.
Arguments Rejected {A} reason.

(** ** The counter model *)

(** [interface ICounter]. *)
Record ICounter := { _id : jsstring; seq : Z }.

(** [counterSchema]: the declared default of the path [seq]. *)
Definition counterSchema_seq_default : Z := 1000.

(** Options of [findOneAndUpdate]. *)
Record QueryOptions := { new : bool; upsert : bool }.

(** Mongoose's [setDefaultsOnInsert] for the path [seq]: on an upsert the
    schema default is added as [$setOnInsert] only when the update does not
    itself modify the path (MongoDB rejects two operators on one path). *)
Definition setDefaultsOnInsert (modifiedPaths : list jsstring) : option Z :=
  if decide (lit "seq" ∈ modifiedPaths) then None
  else Some counterSchema_seq_default.

(** MongoDB's [$inc]: a missing field is created with the increment. The
    sum is the integer sum, which is what the code reads back as long as the
    result is a safe integer. *)
Definition inc (current : option Z) (amount : Z) : Z :=
  (default 0 current + amount)%Z.

(** [findOneAndUpdate({ _id: id }, { $inc: { seq: amount } }, options)],
    executed atomically by the store. A document [{ _id: k, seq: v }] of the
    collection is the binding [k ↦ v]. *)
Definition findOneAndUpdate (c : gmap jsstring Z) (id : jsstring) (amount : Z)
    (options : QueryOptions) : gmap jsstring Z * option ICounter :=
  match c !! id with
  | Some v =>
      let v' := inc (Some v) amount in
      (<[id := v']> c, Some {| _id := id; seq := if new options then v' else v |})
  | None =>
      if upsert options then
        let v' := inc (setDefaultsOnInsert [lit "seq"]) amount in
        (<[id := v']> c,
         if new options then Some {| _id := id; seq := v' |} else None)
      else (c, None)
  end.

(** A failure of the store or of the connection during one command: the
    promise rejects with [fault_error]; the write may or may not have been
    applied by the server. *)
Record StoreFault := { fault_error : JSError; fault_committed : bool }.

Definition CounterModel_findOneAndUpdate (fault : option StoreFault)
    (c : gmap jsstring Z) (id : jsstring) (amount : Z) (options : QueryOptions)
  : gmap jsstring Z * Settled (option ICounter) :=
  let '(c', doc) := findOneAndUpdate c id amount options in
  match fault with
  | None => (c', Fulfilled doc)
  | Some f => (if fault_committed f then c' else c, Rejected (fault_error f))
  end.

Definition bookingNumberKey : jsstring := lit "bookingNumber".

Definition bookingOptions : QueryOptions := {| new := true; upsert := true |}.

(** [counter.seq.toString().padStart(6, '0')]. *)
Definition sequenceNumber (v : Z) : jsstring :=
  String_padStart (Number_toString v) 6 (lit "0").

(** The template literal [`JY-${year}-${sequenceNumber}`]. *)
Definition bookingNumber (year v : Z) : jsstring :=
  lit "JY-" ++ Number_toString year ++ lit "-" ++ sequenceNumber v.

Definition nullDereference : JSError :=
  {| name := lit "TypeError";
     message := lit "Cannot read properties of null (reading 'seq')" |}.

(** The continuation of [getNextBookingNumber] after the [await]. *)
Definition formatCounter (year : Z) (counter : option ICounter) : Settled jsstring :=
  match counter with
  | Some doc => Fulfilled (bookingNumber year (seq doc))
  | None => Rejected nullDereference
  end.

(** [getNextBookingNumber()]: [year] is what [new Date().getFullYear()]
    reads, [fault] what the store does to the command. The function has no
    [try]: a rejection of the awaited command is its own rejection. *)
Definition getNextBookingNumber (year : Z) (fault : option StoreFault)
    (c : gmap jsstring Z) : gmap jsstring Z * Settled jsstring :=
  let '(c', counter) :=
    CounterModel_findOneAndUpdate fault c bookingNumberKey 1 bookingOptions in
  match counter with
  | Fulfilled doc => (c', formatCounter year doc)
  | Rejected e => (c', Rejected e)
  end.

(** The value [seq] holds after one more increment of the booking counter. *)
Definition nextSeq (c : gmap jsstring Z) : Z :=
  inc (c !! bookingNumberKey) 1.

(** A JavaScript number holds an integer exactly when it is a safe integer
    ([Number.isSafeInteger]); on safe integers [+], comparison,
    [toString] and [parseInt] agree with the integers of this model. *)
Definition safeInteger (v : Z) : Prop := (- 2 ^ 53 < v < 2 ^ 53)%Z.

(** The booking counter is a safe integer now and stays one over [n] more
    increments. An absent record counts as holding 0. *)
Definition safeCounter (c : gmap jsstring Z) (n : nat) : Prop :=
  safeInteger (nextSeq c - 1) /\ safeInteger (nextSeq c - 1 + Z.of_nat n).

(** *** Sequences of calls *)

Record Request := { req_year : Z; req_fault : option StoreFault }.

(** Calls served one after the other, with their results in order. *)
Fixpoint serve (reqs : list Request) (c : gmap jsstring Z)
  : gmap jsstring Z * list (Settled jsstring) :=
  match reqs with
  | [] => (c, [])
  | r :: reqs' =>
      let '(c1, res) := getNextBookingNumber (req_year r) (req_fault r) c in
      let '(c2, ress) := serve reqs' c1 in
      (c2, res :: ress)
  end.

Definition fulfilledValue {A} (r : Settled A) : option A :=
  match r with Fulfilled a => Some a | Rejected _ => None end.

(** "Never below": the order in which a counter record may evolve. A present
    record stays present and does not decrease. *)
Definition neverBelow (before after : option Z) : Prop :=
  match before, after with
  | Some v, Some v' => (v <= v')%Z
  | Some _, None => False
  | None, _ => True
  end.

(** A connection failure as the driver reports it. *)
Definition networkError : JSError :=
  {| name := lit "MongoNetworkError";
     message := lit "connect ECONNREFUSED 127.0.0.1:27017" |}.

(** *** Reading a booking number back *)

Definition decimalValue (ds : jsstring) : option Z :=
  match ds with
  | [] => None
  | _ :: _ => if forallb isDecimalDigit ds then Some (Z.of_N (mathInt ds)) else None
  end.

(** The numeric sequence component: what follows the last hyphen. *)
Definition sequenceComponent (s : jsstring) : option Z :=
  decimalValue (rev (takeWhile (fun c => negb (c =? 45)%N) (rev s))).

(** *** Concurrent calls

    Each call of the async function runs in three atomic steps: the
    synchronous prefix (read the clock, send the command), the command
    executed by the store, and the continuation after the [await]. A
    schedule picks which call moves next. *)

Inductive CallState :=
| NotCalled
| Awaiting (year : Z)
| Replied (year : Z) (counter : option ICounter)
| Returned (result : Settled jsstring).

Record System := { db : gmap jsstring Z; calls : list CallState }.

(** One scheduling decision: the call that moves and the calendar year at
    that moment. *)
Record Event := { ev_call : nat; ev_now : Z }.

Definition step (e : Event) (σ : System) : System :=
  match calls σ !! ev_call e with
  | Some NotCalled =>
      {| db := db σ; calls := <[ev_call e := Awaiting (ev_now e)]> (calls σ) |}
  | Some (Awaiting year) =>
      let '(c', counter) := findOneAndUpdate (db σ) bookingNumberKey 1 bookingOptions in
      {| db := c'; calls := <[ev_call e := Replied year counter]> (calls σ) |}
  | Some (Replied year counter) =>
      {| db := db σ;
         calls := <[ev_call e := Returned (formatCounter year counter)]> (calls σ) |}
  | Some (Returned _) | None => σ
  end.

Definition run (schedule : list Event) (σ : System) : System :=
  foldl (fun σ e => step e σ) σ schedule.

Definition isReturned (s : CallState) : bool :=
  match s with Returned _ => true | _ => false end.

Definition returnedSequence (s : CallState) : option Z :=
  match s with
  | Returned (Fulfilled r) => sequenceComponent r
  | _ => None
  end.

(** The numeric sequence values of the booking numbers returned so far. *)
Definition returnedSequences (σ : System) : list Z :=
  omap returnedSequence (calls σ).

(** The value a call has drawn from the counter, once the store has
    executed its command. *)
Definition drawn (s : CallState) : option Z :=
  match s with
  | Replied _ (Some doc) => Some (seq doc)
  | Returned (Fulfilled r) => sequenceComponent r
  | _ => None
  end.

Definition pastStore (s : CallState) : bool :=
  match s with
  | Replied _ _ | Returned _ => true
  | NotCalled | Awaiting _ => false
  end.

(** How far a call has come: 3 is returned. *)
Definition rank (s : CallState) : nat :=
  match s with
  | NotCalled => 0
  | Awaiting _ => 1
  | Replied _ _ => 2
  | Returned _ => 3
  end.

(** How often a schedule lets call [i] move. *)
Fixpoint timesScheduled (i : nat) (schedule : list Event) : nat :=
  match schedule with
  | [] => 0
  | e :: rest => (if Nat.eqb (ev_call e) i then 1 else 0) + timesScheduled i rest
  end.

(** The invariant of a run that started from a counter at [b]: after [k]
    commands the counter holds [b + k], the values drawn so far are
    [b + 1, ..., b + k] in some order, and every call past the store has
    drawn one. *)
Definition consistent (b : Z) (σ : System) : Prop :=
  exists k : nat,
    db σ !! bookingNumberKey = Some (b + Z.of_nat k)%Z
    /\ omap drawn (calls σ) ≡ₚ (fun i => (b + Z.of_nat i)%Z) <$> List.seq 1 k
    /\ Forall (fun s => pastStore s = true -> is_Some (drawn s)) (calls σ).

Definition startWith (v : Z) (n : nat) : System :=
  {| db := {[ bookingNumberKey := v ]}; calls := replicate n NotCalled |}.

(** [n] calls about to be made on a collection without the counter record. *)
Definition startFresh (n : nat) : System :=
  {| db := ∅; calls := replicate n NotCalled |}.

(** ** sanitizeString

    The five global replacements in the order of the source, then [trim]. *)

Definition sanitizeString (input : jsstring) : jsstring :=
  String_trim
    (String_replace_all 47 (lit "&#x2F;")
       (String_replace_all 39 (lit "&#x27;")
          (String_replace_all 34 (lit "&quot;")
             (String_replace_all 62 (lit "&gt;")
                (String_replace_all 60 (lit "&lt;") input))))).

(** ** paginationQuerySchema *)

(** A value of the parsed query string: a string, a repeated parameter, or
    a bracketed parameter parsed into an object. *)
Inductive QueryValue :=
| QString (s : jsstring)
| QArray (items : list jsstring)
| QNested (fields : list (jsstring * jsstring)).

Record ZodIssue := { issue_path : jsstring; issue_code : jsstring }.

Record PaginationQuery := { page : Z; limit : Z }.

(** [z.string().optional()]: [None] is [undefined]. *)
Definition zStringOptional (path : jsstring) (v : option QueryValue)
  : list ZodIssue + option jsstring :=
  match v with
  | None => inr None
  | Some (QString s) => inr (Some s)
  | Some (QArray _) | Some (QNested _) =>
      inl [ {| issue_path := path; issue_code := lit "invalid_type" |} ]
  end.

(** [val || fallback]: [undefined] and the empty string are falsy. *)
Definition orElse (val : option jsstring) (fallback : jsstring) : jsstring :=
  match val with
  | Some (c :: s) => c :: s
  | _ => fallback
  end.

Definition pageTransform (val : option jsstring) : Z :=
  match parseInt10 (orElse val (lit "1")) with
  | None => 1
  | Some parsed => if (parsed <? 1)%Z then 1 else parsed
  end.

Definition limitTransform (val : option jsstring) : Z :=
  match parseInt10 (orElse val (lit "10")) with
  | None => 10
  | Some parsed => if (parsed <? 1)%Z then 10 else Z.min parsed 100
  end.

(** [paginationQuerySchema.parse(query)]: the issues of both keys, or the
    transformed object. *)
Definition paginationQuerySchema (query : gmap jsstring QueryValue)
  : list ZodIssue + PaginationQuery :=
  match zStringOptional (lit "page") (query !! lit "page"),
        zStringOptional (lit "limit") (query !! lit "limit") with
  | inr p, inr l => inr {| page := pageTransform p; limit := limitTransform l |}
  | inl ip, inl il => inl (ip ++ il)
  | inl ip, inr _ => inl ip
  | inr _, inl il => inl il
  end.

(** A string without white space at either end. *)
Definition trimmed (s : jsstring) : Prop :=
  match s with [] => True | ch :: _ => isStrWhiteSpaceChar ch = false end
  /\ match rev s with [] => True | ch :: _ => isStrWhiteSpaceChar ch = false end.

(** ** JavaScript values

    The values a request carries and a handler stores: JSON values, dates,
    and objects with their own properties and their prototype. A number is
    kept as its IEEE 754 binary64 encoding; the code modelled below copies
    numbers and never inspects them. An object's own properties are a finite
    map; [proto] is [None] for the default [Object.prototype], [Some VNull]
    for no prototype and [Some o] for the object [o]. *)

Inductive JSValue :=
| VUndefined
| VNull
| VBool (b : bool)
| VNumber (bits : N)
| VString (s : jsstring)
| VDate (time : Z)
| VArray (items : list JSValue)
| VObject (proto : option JSValue) (props : gmap jsstring JSValue).

(** An ordinary object under construction or mutation. *)
Record JSObject := { obj_proto : option JSValue; obj_props : gmap jsstring JSValue }.

Definition emptyObject : JSObject := {| obj_proto := None; obj_props := ∅ |}.

Definition toValue (o : JSObject) : JSValue := VObject (obj_proto o) (obj_props o).

(** What the [__proto__] setter accepts: an object or [null]. *)
Definition isObjectOrNull (v : JSValue) : bool :=
  match v with
  | VNull | VDate _ | VArray _ | VObject _ _ => true
  | VUndefined | VBool _ | VNumber _ | VString _ => false
  end.

(** Whether the lookup of [__proto__] that starts at the prototype [p]
    ends at the accessor of [Object.prototype]: no object on the way has an
    own property of that name, and the chain does not end in [null]. *)
Fixpoint reachesProtoAccessor (p : JSValue) : bool :=
  match p with
  | VNull => false
  | VObject proto props =>
      if decide (is_Some (props !! lit "__proto__")) then false
      else match proto with
           | None => true
           | Some q => reachesProtoAccessor q
           end
  | _ => true
  end.

(** [target[key] = value] on an ordinary object whose properties are all
    writable data properties. The key [__proto__] goes to the inherited
    setter, which replaces the prototype when the value is an object or
    [null] and otherwise does nothing; any other key, and [__proto__] where
    the setter is shadowed or out of reach, becomes an own property. *)
Definition jsSet (target : JSObject) (key : jsstring) (value : JSValue) : JSObject :=
  if decide (key = lit "__proto__"
             /\ obj_props target !! lit "__proto__" = None
             /\ from_option reachesProtoAccessor true (obj_proto target) = true)
  then
    if isObjectOrNull value
    then {| obj_proto := Some value; obj_props := obj_props target |}
    else target
  else {| obj_proto := obj_proto target;
          obj_props := <[key := value]> (obj_props target) |}.

(** ** sanitizeObject *)

Fixpoint sanitizeObject (obj : JSValue) : JSValue :=
  match obj with
  | VString s => VString (sanitizeString s)
  | VArray items => VArray (map sanitizeObject items)
  | VObject _ props =>
      toValue
        (map_fold (fun key value sanitized => jsSet sanitized key (sanitizeObject value))
                  emptyObject props)
  | VDate _ => toValue emptyObject
  | VUndefined | VNull | VBool _ | VNumber _ => obj
  end.

(** A property of every string value inside a value: array elements,
    property values and what the prototype holds. Property names are not
    string values. *)
Inductive AllStrings (P : jsstring -> Prop) : JSValue -> Prop :=
| AllStrings_undefined : AllStrings P VUndefined
| AllStrings_null : AllStrings P VNull
| AllStrings_bool b : AllStrings P (VBool b)
| AllStrings_number bits : AllStrings P (VNumber bits)
| AllStrings_string s : P s -> AllStrings P (VString s)
| AllStrings_date t : AllStrings P (VDate t)
| AllStrings_array items :
    Forall (AllStrings P) items -> AllStrings P (VArray items)
| AllStrings_object proto props :
    (forall p, proto = Some p -> AllStrings P p) ->
    (forall k v, props !! k = Some v -> AllStrings P v) ->
    AllStrings P (VObject proto props).

(** No object inside the value has an own property named [__proto__]. *)
Inductive ProtoFree : JSValue -> Prop :=
| ProtoFree_undefined : ProtoFree VUndefined
| ProtoFree_null : ProtoFree VNull
| ProtoFree_bool b : ProtoFree (VBool b)
| ProtoFree_number bits : ProtoFree (VNumber bits)
| ProtoFree_string s : ProtoFree (VString s)
| ProtoFree_date t : ProtoFree (VDate t)
| ProtoFree_array items : Forall ProtoFree items -> ProtoFree (VArray items)
| ProtoFree_object proto props :
    props !! lit "__proto__" = None ->
    (forall k v, props !! k = Some v -> ProtoFree v) ->
    ProtoFree (VObject proto props).

(** A measure for induction on values. *)
Fixpoint jsSize (v : JSValue) : nat :=
  match v with
  | VArray items => S (foldr (fun x acc => jsSize x + acc)%nat 0%nat items)
  | VObject proto props =>
      S (match proto with Some p => jsSize p | None => 0%nat end
         + map_fold (fun _ x acc => jsSize x + acc)%nat 0%nat props)
  | _ => 1%nat
  end.

(** ** The validation middleware *)

(** [type ValidationTarget = 'body' | 'query' | 'params']. *)
Inductive ValidationTarget := TBody | TQuery | TParams.

#[global] Instance ValidationTarget_eq_dec : EqDecision ValidationTarget.
Proof. solve_decision. Defined.

Definition targetName (t : ValidationTarget) : jsstring :=
  match t with
  | TBody => lit "body"
  | TQuery => lit "query"
  | TParams => lit "params"
  end.

(** The parts of an Express request the middleware reads and writes.
    [req.query] and [req.params] are objects held by the request, as in
    Express 4: what [Object.assign] writes to them is there for the next
    handler. Under Express 5 [req.query] is parsed anew on every read, so a
    write to it is lost; the properties stated about what a later handler
    reads are therefore about the body and the route parameters. *)
Record ExpressRequest := { body : JSValue; query : JSObject; params : JSObject }.

(** One element of [issue.path]: a property name or an array index. *)
Inductive PathSegment := PKey (k : jsstring) | PIndex (i : N).

Record Issue := { path : list PathSegment; issue_message : jsstring }.

(** What [schema.parse(data)] does: return the validated data, throw a
    [ZodError] with its issues, or throw something else. *)
Inductive ParseOutcome :=
| Parsed (validated : JSValue)
| ZodError (issues : list Issue)
| Thrown (error : JSError).

(** An entry of the [errors] array sent to the client. *)
Record FieldError := { field : jsstring; field_message : jsstring }.

(** What a handler does with [res] and [next]. [sendError] and
    [sendSuccess] belong to [utils/response.utils]; a call is recorded with
    the arguments it was given. *)
Inductive Action :=
| Next
| NextError (error : JSError)
| SendError (text : jsstring) (status : Z) (errors : option (list FieldError))
| SendSuccess (data : JSValue) (status : option Z) (text : option jsstring).

(** [parts.join(sep)]. *)
Fixpoint Array_join (sep : jsstring) (parts : list jsstring) : jsstring :=
  match parts with
  | [] => []
  | [p] => p
  | p :: rest => p ++ sep ++ Array_join sep rest
  end.

Definition segmentText (seg : PathSegment) : jsstring :=
  match seg with
  | PKey k => k
  | PIndex i => decimalDigits i
  end.

(** [issue.path.join('.')]. *)
Definition pathText (issue : Issue) : jsstring :=
  Array_join (lit ".") (segmentText <$> path issue).

(** The own enumerable string-keyed properties of a value, as [Object.assign]
    and object spread read them: the properties of an object, the elements
    of an array and the code units of a string under their indices. *)
Definition ownEnumerable (v : JSValue) : gmap jsstring JSValue :=
  match v with
  | VObject _ props => props
  | VArray items =>
      list_to_map (imap (fun i x => (decimalDigits (N.of_nat i), x)) items)
  | VString s =>
      list_to_map (imap (fun i ch => (decimalDigits (N.of_nat i), VString [ch])) s)
  | _ => ∅
  end.

(** [Object.assign(target, source)]. *)
Definition Object_assign (target : JSObject) (source : JSValue) : JSObject :=
  map_fold (fun key value acc => jsSet acc key value) target (ownEnumerable source).

(** [req[target]]. *)
Definition readTarget (t : ValidationTarget) (req : ExpressRequest) : JSValue :=
  match t with
  | TBody => body req
  | TQuery => toValue (query req)
  | TParams => toValue (params req)
  end.

(** The update of the request with the validated data. *)
Definition writeTarget (t : ValidationTarget) (validated : JSValue) (req : ExpressRequest)
  : ExpressRequest :=
  match t with
  | TBody => {| body := validated; query := query req; params := params req |}
  | TQuery =>
      {| body := body req; query := Object_assign (query req) validated;
         params := params req |}
  | TParams =>
      {| body := body req; query := query req;
         params := Object_assign (params req) validated |}
  end.

Definition validationFailed : jsstring := lit "Validation failed".

(** [validate(schema, target)(req, res, next)]. *)
Definition validate (schema : JSValue -> ParseOutcome) (target : ValidationTarget)
    (req : ExpressRequest) : ExpressRequest * list Action :=
  match schema (readTarget target req) with
  | Parsed validated => (writeTarget target validated req, [Next])
  | ZodError issues =>
      (req,
       [SendError validationFailed 400
          (Some ((fun issue => {| field := pathText issue;
                                  field_message := issue_message issue |})
                   <$> issues))])
  | Thrown error => (req, [NextError error])
  end.

(** The loop of [validateMultiple] over [Object.entries(schemas)], with the
    errors collected so far. *)
Fixpoint validateMultiple_from
    (entries : list (ValidationTarget * option (JSValue -> ParseOutcome)))
    (allErrors : list FieldError) (req : ExpressRequest) : ExpressRequest * list Action :=
  match entries with
  | [] =>
      match allErrors with
      | [] => (req, [Next])
      | _ :: _ => (req, [SendError validationFailed 400 (Some allErrors)])
      end
  | (target, None) :: rest => validateMultiple_from rest allErrors req
  | (target, Some schema) :: rest =>
      match schema (readTarget target req) with
      | Parsed validated =>
          validateMultiple_from rest allErrors (writeTarget target validated req)
      | ZodError issues =>
          validateMultiple_from rest
            (allErrors
               ++ ((fun issue =>
                      {| field := targetName target ++ lit "." ++ pathText issue;
                         field_message := issue_message issue |}) <$> issues))
            req
      | Thrown error => (req, [NextError error])
      end
  end.

(** [validateMultiple(schemas)(req, res, next)]. *)
Definition validateMultiple
    (schemas : list (ValidationTarget * option (JSValue -> ParseOutcome)))
    (req : ExpressRequest) : ExpressRequest * list Action :=
  validateMultiple_from schemas [] req.

(** The errors one entry contributes, judged on a given request. *)
Definition entryErrors (req : ExpressRequest)
    (entry : ValidationTarget * option (JSValue -> ParseOutcome)) : list FieldError :=
  match entry.2 with
  | None => []
  | Some schema =>
      match schema (readTarget entry.1 req) with
      | ZodError issues =>
          (fun issue => {| field := targetName entry.1 ++ lit "." ++ pathText issue;
                           field_message := issue_message issue |}) <$> issues
      | _ => []
      end
  end.

(** Whether an entry's schema throws something other than a [ZodError]. *)
Definition entryThrows (req : ExpressRequest)
    (entry : ValidationTarget * option (JSValue -> ParseOutcome)) : Prop :=
  match entry.2 with
  | None => False
  | Some schema =>
      match schema (readTarget entry.1 req) with
      | Thrown _ => True
      | _ => False
      end
  end.

(** ** The homestays controller

    A stored homestay is an object made by an object literal: its own
    properties, under the default prototype. *)

(** [h.key] on such an object, for a name [Object.prototype] does not
    define. *)
Definition prop (h : gmap jsstring JSValue) (key : jsstring) : JSValue :=
  default VUndefined (h !! key).

(** [h._id === id] for a string [id]. *)
Definition hasId (id : jsstring) (h : gmap jsstring JSValue) : bool :=
  match prop h (lit "_id") with
  | VString s => bool_decide (s = id)
  | _ => false
  end.

(** [array.find(p)]; [None] is [undefined]. *)
Fixpoint Array_find {A} (p : A -> bool) (l : list A) : option A :=
  match l with
  | [] => None
  | x :: rest => if p x then Some x else Array_find p rest
  end.

(** [array.findIndex(p)]; [None] is [-1]. *)
Fixpoint Array_findIndex {A} (p : A -> bool) (l : list A) : option nat :=
  match l with
  | [] => None
  | x :: rest => if p x then Some 0%nat else S <$> Array_findIndex p rest
  end.

Definition notFound : Action := SendError (lit "Homestay not found") 404 None.

(** [getHomestayById]: [id] is [req.params.id]. *)
Definition getHomestayById (id : jsstring) (homestaysStore : list (gmap jsstring JSValue))
  : Action :=
  match Array_find (hasId id) homestaysStore with
  | None => notFound
  | Some homestay => SendSuccess (VObject None homestay) None None
  end.

(** The object literal of [updateHomestay]: the stored homestay, the
    updates spread over it, then [_id], [createdAt] and [updatedAt]. *)
Definition mergeUpdate (existing : gmap jsstring JSValue) (updates : JSValue) (now : Z)
  : gmap jsstring JSValue :=
  <[lit "updatedAt" := VDate now]>
    (<[lit "createdAt" := prop existing (lit "createdAt")]>
       (<[lit "_id" := prop existing (lit "_id")]>
          (ownEnumerable updates ∪ existing))).

(** [updateHomestay]: [updates] is [req.body], [now] the time [new Date()]
    reads. The index [findIndex] returns is always within the array, so the
    inner [None] case is never taken. *)
Definition updateHomestay (id : jsstring) (updates : JSValue) (now : Z)
    (homestaysStore : list (gmap jsstring JSValue))
  : list (gmap jsstring JSValue) * Action :=
  match Array_findIndex (hasId id) homestaysStore with
  | None => (homestaysStore, notFound)
  | Some index =>
      match homestaysStore !! index with
      | None => (homestaysStore, notFound)
      | Some existing =>
          let updatedHomestay := mergeUpdate existing updates now in
          (<[index := updatedHomestay]> homestaysStore,
           SendSuccess (VObject None updatedHomestay) (Some 200%Z)
                       (Some (lit "Homestay updated successfully")))
      end
  end.

(** [deleteHomestay]. *)
Definition deleteHomestay (id : jsstring) (homestaysStore : list (gmap jsstring JSValue))
  : list (gmap jsstring JSValue) * Action :=
  match Array_findIndex (hasId id) homestaysStore with
  | None => (homestaysStore, notFound)
  | Some index =>
      (delete index homestaysStore,
       SendSuccess VNull (Some 200%Z) (Some (lit "Homestay deleted successfully")))
  end.

(** ** mongoIdSchema and searchQuerySchema *)

Definition isHexDigit (ch : N) : bool :=
  isDecimalDigit ch
  || ((97 <=? ch)%N && (ch <=? 102)%N)
  || ((65 <=? ch)%N && (ch <=? 70)%N).

(** The pattern [/^[a-fA-F0-9]{24}$/]. *)
Definition matchesMongoId (s : jsstring) : bool :=
  bool_decide (length s = 24%nat) && forallb isHexDigit s.

(** [mongoIdSchema.safeParse(v).success]. *)
Definition mongoIdSchema (v : JSValue) : bool :=
  match v with
  | VString s => matchesMongoId s
  | _ => false
  end.

Inductive SearchType := SearchAll | SearchHomestays | SearchGuides | SearchProducts.

Record SearchQuery :=
  { search_page : Z; search_limit : Z; q : jsstring; search_type : SearchType }.

(** [z.string().min(2, ...)] on the key [q]. *)
Definition zSearchText (v : option QueryValue) : list ZodIssue + jsstring :=
  match v with
  | Some (QString s) =>
      if decide (2 <= length s)%nat then inr s
      else inl [ {| issue_path := lit "q"; issue_code := lit "too_small" |} ]
  | _ => inl [ {| issue_path := lit "q"; issue_code := lit "invalid_type" |} ]
  end.

(** [z.enum(['all', 'homestays', 'guides', 'products']).default('all')]. *)
Definition zSearchType (v : option QueryValue) : list ZodIssue + SearchType :=
  match v with
  | None => inr SearchAll
  | Some (QString s) =>
      if decide (s = lit "all") then inr SearchAll
      else if decide (s = lit "homestays") then inr SearchHomestays
      else if decide (s = lit "guides") then inr SearchGuides
      else if decide (s = lit "products") then inr SearchProducts
      else inl [ {| issue_path := lit "type"; issue_code := lit "invalid_enum_value" |} ]
  | Some _ =>
      inl [ {| issue_path := lit "type"; issue_code := lit "invalid_type" |} ]
  end.

Definition issuesOf {A} (r : list ZodIssue + A) : list ZodIssue :=
  match r with inl issues => issues | inr _ => [] end.

(** [searchQuerySchema.parse(query)]: the pagination keys, then [q] and
    [type]; the issues of all keys are reported together. *)
Definition searchQuerySchema (query : gmap jsstring QueryValue)
  : list ZodIssue + SearchQuery :=
  match zStringOptional (lit "page") (query !! lit "page"),
        zStringOptional (lit "limit") (query !! lit "limit"),
        zSearchText (query !! lit "q"),
        zSearchType (query !! lit "type") with
  | inr p, inr l, inr text, inr ty =>
      inr {| search_page := pageTransform p; search_limit := limitTransform l;
             q := text; search_type := ty |}
  | rp, rl, rq, rt => inl (issuesOf rp ++ issuesOf rl ++ issuesOf rq ++ issuesOf rt)
  end.

(** ** Further notions about concurrent calls *)

(** The year the clock shows when call [i] is first scheduled, that is when
    the function is called. *)
Definition yearAtCall (i : nat) (schedule : list Event) : option Z :=
  ev_now <$> Array_find (fun e => Nat.eqb (ev_call e) i) schedule.

(** A call that has started with the year [y] in hand. *)
Definition carriesYear (y : Z) (s : CallState) : Prop :=
  match s with
  | NotCalled => False
  | Awaiting year => year = y
  | Replied year _ => year = y
  | Returned result => exists counter, result = formatCounter y counter
  end.

(* ====================================================================== *)
(** * Part II: properties *)
(* ====================================================================== *)

(** ** Lists *)

Lemma dropWhile_head {A} (p : A -> bool) (l : list A) :
  match dropWhile p l with
  | [] => True
  | x :: _ => p x = false
  end.
Proof.
  induction l as [|x l IH]; simpl; [exact I|].
  destruct (p x) eqn:E; [exact IH | exact E].
Qed.

Lemma dropWhile_fixed {A} (p : A -> bool) (l : list A) :
  match l with [] => True | x :: _ => p x = false end ->
  dropWhile p l = l.
Proof. destruct l as [|x l]; simpl; [reflexivity|]. intros ->. reflexivity. Qed.

Lemma dropWhile_suffix {A} (p : A -> bool) (l : list A) :
  exists w, l = w ++ dropWhile p l.
Proof.
  induction l as [|x l [w IH]]; simpl.
  - exists []. reflexivity.
  - destruct (p x).
    + exists (x :: w). simpl. f_equal. exact IH.
    + exists []. reflexivity.
Qed.

Lemma dropWhile_Forall {A} (P : A -> Prop) (p : A -> bool) (l : list A) :
  Forall P l -> Forall P (dropWhile p l).
Proof.
  induction 1 as [|x l Hx Hl IH]; simpl; [constructor|].
  destruct (p x); [exact IH | constructor; assumption].
Qed.

Lemma takeWhile_app_stop {A} (p : A -> bool) (l : list A) (x : A) (r : list A) :
  Forall (fun y => p y = true) l -> p x = false ->
  takeWhile p (l ++ x :: r) = l.
Proof.
  intros Hl Hx. induction Hl as [|y l Hy Hl IH]; simpl.
  - rewrite Hx. reflexivity.
  - rewrite Hy, IH. reflexivity.
Qed.

Lemma takeWhile_Forall {A} (p : A -> bool) (l : list A) :
  Forall (fun y => p y = true) (takeWhile p l).
Proof.
  induction l as [|x l IH]; simpl; [constructor|].
  destruct (p x) eqn:E; constructor; assumption.
Qed.

(** ** Decimal rendering *)

(** Quotient and remainder by ten as fresh variables with their defining
    facts, for linear arithmetic. *)
Ltac div_mod_10 n :=
  let q := fresh "q" in
  let r := fresh "r" in
  pose proof (N.div_mod n 10 ltac:(discriminate));
  pose proof (N.mod_upper_bound n 10 ltac:(discriminate));
  generalize dependent (n mod 10)%N; intros r;
  generalize dependent (n / 10)%N; intros q; intros.

Lemma digit_code_isDecimalDigit (n : N) : isDecimalDigit (48 + n mod 10) = true.
Proof.
  unfold isDecimalDigit.
  apply andb_true_intro; split; apply N.leb_le; div_mod_10 n; lia.
Qed.

Lemma digitsFrom_S (fuel : nat) (n : N) (acc : jsstring) :
  digitsFrom (S fuel) n acc
  = if (n / 10 =? 0)%N then (48 + n mod 10)%N :: acc
    else digitsFrom fuel (n / 10) ((48 + n mod 10)%N :: acc).
Proof. reflexivity. Qed.

Arguments digitsFrom : simpl never.

Lemma digitsFrom_digits (fuel : nat) : forall n acc,
  Forall (fun c => isDecimalDigit c = true) acc ->
  Forall (fun c => isDecimalDigit c = true) (digitsFrom fuel n acc).
Proof.
  induction fuel as [|fuel IH]; intros n acc Hacc; [exact Hacc|].
  rewrite digitsFrom_S. destruct (n / 10 =? 0)%N.
  - constructor; [apply digit_code_isDecimalDigit | exact Hacc].
  - apply IH. constructor; [apply digit_code_isDecimalDigit | exact Hacc].
Qed.

Lemma digitsFrom_length_lower (fuel : nat) : forall n acc,
  (S (length acc) <= length (digitsFrom (S fuel) n acc))%nat.
Proof.
  induction fuel as [|fuel IH]; intros n acc; rewrite digitsFrom_S;
    destruct (n / 10 =? 0)%N; simpl; try lia.
  specialize (IH (n / 10)%N ((48 + n mod 10)%N :: acc)). simpl in IH. lia.
Qed.

Lemma div10_pow2 (n : N) (fuel : nat) :
  (n < 2 ^ N.of_nat (S fuel))%N -> (n / 10 < 2 ^ N.of_nat fuel)%N.
Proof.
  intros Hn.
  rewrite Nat2N.inj_succ, N.pow_succ_r in Hn by lia.
  apply N.Div0.div_lt_upper_bound.
  assert (0 < 2 ^ N.of_nat fuel)%N
    by (apply N.neq_0_lt_0, N.pow_nonzero; discriminate).
  generalize dependent (2 ^ N.of_nat fuel)%N. intros p Hn Hp. lia.
Qed.

Lemma div10_pow10 (n : N) (k : nat) :
  (n / 10 < 10 ^ N.of_nat k)%N <-> (n < 10 ^ N.of_nat (S k))%N.
Proof.
  rewrite Nat2N.inj_succ, N.pow_succ_r by lia.
  generalize (10 ^ N.of_nat k)%N. intros p. div_mod_10 n. lia.
Qed.

Lemma small_quotient (n : N) : (n < 2 ^ N.of_nat 1)%N -> (n / 10 = 0)%N.
Proof. intros Hn. apply N.div_small. change (2 ^ N.of_nat 1)%N with 2%N in Hn. lia. Qed.

Lemma zero_quotient_small (n : N) (k : nat) :
  (n / 10 = 0)%N -> (n < 10 ^ N.of_nat (S k))%N.
Proof.
  intros Hq. apply div10_pow10. rewrite Hq.
  apply N.neq_0_lt_0, N.pow_nonzero. discriminate.
Qed.

(** The number of digits produced is governed by the magnitude alone. *)
Lemma digitsFrom_length_upper (fuel : nat) : forall n acc (k : nat),
  (n < 2 ^ N.of_nat (S fuel))%N ->
  (length (digitsFrom (S fuel) n acc) <= length acc + S k)%nat <->
  (n < 10 ^ N.of_nat (S k))%N.
Proof.
  induction fuel as [|fuel IH]; intros n acc k Hn; rewrite digitsFrom_S.
  - rewrite (small_quotient n Hn). simpl.
    split; [intros _; apply zero_quotient_small, small_quotient, Hn | intros; lia].
  - destruct (N.eqb_spec (n / 10) 0) as [Hq|Hq].
    + simpl. split; [intros _; apply zero_quotient_small, Hq | intros; lia].
    + rewrite <- div10_pow10. destruct k as [|k].
      * pose proof (digitsFrom_length_lower fuel (n / 10)%N ((48 + n mod 10)%N :: acc)) as Hl.
        simpl in Hl. change (10 ^ N.of_nat 0)%N with 1%N.
        split; [intros Hlen; exfalso; lia | intros Hlt; apply N.lt_1_r in Hlt; contradiction].
      * rewrite <- (IH (n / 10)%N ((48 + n mod 10)%N :: acc) k (div10_pow2 _ _ Hn)).
        simpl. split; intros; lia.
Qed.

Lemma log2_fuel (n : N) : (n < 2 ^ N.of_nat (S (N.to_nat (N.log2 n))))%N.
Proof.
  rewrite Nat2N.inj_succ, N2Nat.id.
  destruct (N.eq_dec n 0%N) as [->|Hn]; [reflexivity|].
  apply N.log2_spec. lia.
Qed.

Lemma decimalDigits_length_le (n : N) (k : nat) :
  (length (decimalDigits n) <= S k)%nat <-> (n < 10 ^ N.of_nat (S k))%N.
Proof.
  unfold decimalDigits.
  rewrite <- (digitsFrom_length_upper _ n [] k (log2_fuel n)). simpl. reflexivity.
Qed.

Lemma decimalDigits_nonempty (n : N) : (1 <= length (decimalDigits n))%nat.
Proof. unfold decimalDigits. apply (digitsFrom_length_lower _ n []). Qed.

Lemma decimalDigits_digits (n : N) :
  Forall (fun c => isDecimalDigit c = true) (decimalDigits n).
Proof. apply digitsFrom_digits. constructor. Qed.

Lemma digitsFrom_value (fuel : nat) : forall n acc a,
  (n < 2 ^ N.of_nat (S fuel))%N ->
  exists d : N,
    foldl (fun acc c => (10 * acc + (c - 48))%N) a (digitsFrom (S fuel) n acc)
    = foldl (fun acc c => (10 * acc + (c - 48))%N) (a * 10 ^ d + n)%N acc.
Proof.
  induction fuel as [|fuel IH]; intros n acc a Hn; rewrite digitsFrom_S.
  - rewrite (small_quotient n Hn). simpl. exists 1%N. f_equal.
    pose proof (small_quotient n Hn). change (10 ^ 1)%N with 10%N.
    div_mod_10 n. lia.
  - destruct (N.eqb_spec (n / 10) 0) as [Hq|Hq].
    + exists 1%N. simpl. f_equal. change (10 ^ 1)%N with 10%N.
      div_mod_10 n. lia.
    + destruct (IH (n / 10)%N ((48 + n mod 10)%N :: acc) a (div10_pow2 _ _ Hn))
        as [d Hd].
      exists (N.succ d). rewrite Hd. simpl. f_equal.
      rewrite N.pow_succ_r by lia.
      clear Hd. generalize (10 ^ d)%N. intros p. div_mod_10 n. nia.
Qed.

Lemma mathInt_decimalDigits (n : N) : mathInt (decimalDigits n) = n.
Proof.
  unfold mathInt, decimalDigits.
  destruct (digitsFrom_value _ n [] 0%N (log2_fuel n)) as [d Hd].
  rewrite Hd. simpl. lia.
Qed.

Lemma mathInt_leading_zeros (k : nat) (ds : jsstring) :
  mathInt (replicate k 48%N ++ ds) = mathInt ds.
Proof.
  unfold mathInt. rewrite foldl_app. f_equal.
  induction k as [|k IH]; simpl; [reflexivity | exact IH].
Qed.

(** ** Padding *)

Lemma padStart_zero (s : jsstring) (m : nat) :
  String_padStart s m (lit "0") = replicate (m - length s) 48%N ++ s.
Proof.
  unfold String_padStart. destruct (decide (m <= length s)%nat) as [Hle|Hgt].
  - replace (m - length s)%nat with 0%nat by lia. reflexivity.
  - change (lit "0") with [48%N]. cbv iota zeta. f_equal.
    generalize (m - length s)%nat as k. intros k.
    assert (concat (replicate k [48%N]) = replicate k 48%N) as ->.
    { induction k as [|k IH]; simpl; [reflexivity | f_equal; exact IH]. }
    apply take_ge. rewrite length_replicate. lia.
Qed.

Lemma sequenceNumber_nonneg (v : Z) :
  (0 <= v)%Z ->
  sequenceNumber v
  = replicate (6 - length (decimalDigits (Z.to_N v))) 48%N ++ decimalDigits (Z.to_N v).
Proof.
  intros Hv. unfold sequenceNumber. rewrite padStart_zero.
  unfold Number_toString. destruct (Z.ltb_spec v 0); [lia | reflexivity].
Qed.

Lemma sequenceNumber_digits (v : Z) :
  (0 <= v)%Z -> Forall (fun c => isDecimalDigit c = true) (sequenceNumber v).
Proof.
  intros Hv. rewrite sequenceNumber_nonneg by exact Hv.
  apply Forall_app. split; [|apply decimalDigits_digits].
  apply Forall_replicate. reflexivity.
Qed.

Lemma decimalValue_sequenceNumber (v : Z) :
  (0 <= v)%Z -> decimalValue (sequenceNumber v) = Some v.
Proof.
  intros Hv. pose proof (sequenceNumber_digits v Hv) as Hd.
  unfold decimalValue.
  destruct (sequenceNumber v) as [|c s] eqn:E.
  - rewrite sequenceNumber_nonneg in E by exact Hv.
    apply (f_equal length) in E. rewrite length_app in E.
    pose proof (decimalDigits_nonempty (Z.to_N v)). simpl in E. lia.
  - rewrite <- E in *. clear E c s.
    assert (forallb isDecimalDigit (sequenceNumber v) = true) as ->.
    { apply forallb_forall. intros c Hc.
      rewrite Forall_forall in Hd. apply Hd. apply list_elem_of_In. exact Hc. }
    rewrite sequenceNumber_nonneg by exact Hv.
    rewrite mathInt_leading_zeros, mathInt_decimalDigits. f_equal. lia.
Qed.

(** The sequence value can be read back from a booking number. *)
Lemma sequenceComponent_bookingNumber (year v : Z) :
  (0 <= v)%Z -> sequenceComponent (bookingNumber year v) = Some v.
Proof.
  intros Hv. unfold sequenceComponent, bookingNumber.
  change (lit "-") with [45%N].
  rewrite !rev_app_distr. simpl (rev [45%N]). rewrite <- !app_assoc. simpl.
  rewrite takeWhile_app_stop.
  - rewrite rev_involutive. apply decimalValue_sequenceNumber. exact Hv.
  - apply Forall_forall. intros c Hc. apply list_elem_of_In, in_rev in Hc.
    pose proof (sequenceNumber_digits v Hv) as Hd. rewrite Forall_forall in Hd.
    specialize (Hd c (proj2 (list_elem_of_In _ _) Hc)).
    unfold isDecimalDigit in Hd. apply andb_prop in Hd as [H1 H2].
    apply N.leb_le in H1. apply negb_true_iff, N.eqb_neq. lia.
  - reflexivity.
Qed.

(** ** The booking counter *)

Lemma findOneAndUpdate_booking (c : gmap jsstring Z) :
  findOneAndUpdate c bookingNumberKey 1 bookingOptions
  = (<[bookingNumberKey := nextSeq c]> c,
     Some {| _id := bookingNumberKey; seq := nextSeq c |}).
Proof.
  unfold findOneAndUpdate, nextSeq.
  destruct (c !! bookingNumberKey) as [v|]; reflexivity.
Qed.

Lemma getNextBookingNumber_ok (year : Z) (c : gmap jsstring Z) :
  getNextBookingNumber year None c
  = (<[bookingNumberKey := nextSeq c]> c, Fulfilled (bookingNumber year (nextSeq c))).
Proof.
  unfold getNextBookingNumber, CounterModel_findOneAndUpdate.
  rewrite findOneAndUpdate_booking. reflexivity.
Qed.

Lemma getNextBookingNumber_fault (year : Z) (f : StoreFault) (c : gmap jsstring Z) :
  getNextBookingNumber year (Some f) c
  = (if fault_committed f then <[bookingNumberKey := nextSeq c]> c else c,
     Rejected (fault_error f)).
Proof.
  unfold getNextBookingNumber, CounterModel_findOneAndUpdate.
  rewrite findOneAndUpdate_booking. reflexivity.
Qed.

(** What a fulfilled call says about the store it leaves behind. *)
Lemma getNextBookingNumber_fulfilled (year : Z) (fault : option StoreFault)
    (c c' : gmap jsstring Z) (r : jsstring) :
  getNextBookingNumber year fault c = (c', Fulfilled r) ->
  fault = None /\ c' = <[bookingNumberKey := nextSeq c]> c
  /\ r = bookingNumber year (nextSeq c).
Proof.
  destruct fault as [f|].
  - rewrite getNextBookingNumber_fault. intros H. inversion H.
  - rewrite getNextBookingNumber_ok. intros H. inversion H. auto.
Qed.

Lemma nextSeq_present (c : gmap jsstring Z) (v : Z) :
  c !! bookingNumberKey = Some v -> nextSeq c = (v + 1)%Z.
Proof. unfold nextSeq. intros ->. reflexivity. Qed.

Lemma nextSeq_insert_eq (c : gmap jsstring Z) (v : Z) :
  nextSeq (<[bookingNumberKey := v]> c) = (v + 1)%Z.
Proof. apply nextSeq_present, lookup_insert_eq. Qed.

Lemma nextSeq_absent (c : gmap jsstring Z) :
  c !! bookingNumberKey = None -> nextSeq c = 1%Z.
Proof. unfold nextSeq. intros ->. reflexivity. Qed.

(** Every call, failed or not, moves the record forward or leaves it. *)
Lemma getNextBookingNumber_neverBelow (year : Z) (fault : option StoreFault)
    (c : gmap jsstring Z) :
  neverBelow (c !! bookingNumberKey)
             ((getNextBookingNumber year fault c).1 !! bookingNumberKey).
Proof.
  assert (neverBelow (c !! bookingNumberKey)
            (<[bookingNumberKey := nextSeq c]> c !! bookingNumberKey)) as Hins.
  { rewrite lookup_insert_eq. unfold neverBelow.
    destruct (c !! bookingNumberKey) as [v|] eqn:E; [|exact I].
    rewrite (nextSeq_present c v E). lia. }
  destruct fault as [f|].
  - rewrite getNextBookingNumber_fault. simpl.
    destruct (fault_committed f); [exact Hins|].
    unfold neverBelow. destruct (c !! bookingNumberKey); [lia | exact I].
  - rewrite getNextBookingNumber_ok. exact Hins.
Qed.

Lemma neverBelow_trans (a b c : option Z) :
  neverBelow a b -> neverBelow b c -> neverBelow a c.
Proof.
  unfold neverBelow. destruct a, b, c; try tauto; try lia.
Qed.

Lemma neverBelow_refl (a : option Z) : neverBelow a a.
Proof. unfold neverBelow. destruct a; [lia | exact I]. Qed.

Lemma serve_cons (r : Request) (reqs : list Request) (c : gmap jsstring Z) :
  serve (r :: reqs) c
  = ((serve reqs (getNextBookingNumber (req_year r) (req_fault r) c).1).1,
     (getNextBookingNumber (req_year r) (req_fault r) c).2
       :: (serve reqs (getNextBookingNumber (req_year r) (req_fault r) c).1).2).
Proof.
  simpl. destruct (getNextBookingNumber (req_year r) (req_fault r) c) as [c1 res].
  simpl. destruct (serve reqs c1) as [c2 ress]. reflexivity.
Qed.

Lemma serve_neverBelow (reqs : list Request) : forall c : gmap jsstring Z,
  neverBelow (c !! bookingNumberKey) ((serve reqs c).1 !! bookingNumberKey).
Proof.
  induction reqs as [|r reqs IH]; intros c.
  - apply neverBelow_refl.
  - rewrite serve_cons. simpl.
    eapply neverBelow_trans; [apply getNextBookingNumber_neverBelow | apply IH].
Qed.

(** A fulfilled result at position [j] carries the value the store holds
    right after the [j]-th call, above everything stored at the start. *)
Lemma serve_fulfilled_at (reqs : list Request) :
  forall (c : gmap jsstring Z) (j : nat) (rj : jsstring),
  (serve reqs c).2 !! j = Some (Fulfilled rj) ->
  exists yj vj,
    (req_year <$> reqs) !! j = Some yj
    /\ (serve (take (S j) reqs) c).1 !! bookingNumberKey = Some vj
    /\ rj = bookingNumber yj vj
    /\ (forall v, c !! bookingNumberKey = Some v -> (v < vj)%Z).
Proof.
  induction reqs as [|r reqs IH]; intros c j rj Hj; [discriminate|].
  rewrite serve_cons in Hj. destruct j as [|j]; simpl in Hj.
  - destruct (getNextBookingNumber (req_year r) (req_fault r) c) as [c1 res] eqn:E.
    simpl in Hj. injection Hj as ->.
    apply getNextBookingNumber_fulfilled in E as (Hf & -> & ->).
    exists (req_year r), (nextSeq c). repeat split.
    + change (take 1 (r :: reqs)) with [r]. simpl. rewrite Hf.
      rewrite getNextBookingNumber_ok. simpl. apply lookup_insert_eq.
    + intros v Hv. rewrite (nextSeq_present c v Hv). lia.
  - destruct (IH _ j rj Hj) as (yj & vj & Hy & Hs & Hr & Hlt).
    exists yj, vj. repeat split; try assumption.
    + change (take (S (S j)) (r :: reqs)) with (r :: take (S j) reqs).
      rewrite serve_cons. exact Hs.
    + intros v Hv.
      pose proof (getNextBookingNumber_neverBelow (req_year r) (req_fault r) c) as Hnb.
      rewrite Hv in Hnb. unfold neverBelow in Hnb.
      destruct ((getNextBookingNumber (req_year r) (req_fault r) c).1 !! bookingNumberKey)
        as [v1|] eqn:E1; [|contradiction].
      specialize (Hlt v1 eq_refl). lia.
Qed.

Lemma serve_app (a b : list Request) : forall c : gmap jsstring Z,
  (serve (a ++ b) c).1 = (serve b (serve a c).1).1.
Proof.
  induction a as [|r a IH]; intros c; [reflexivity|].
  rewrite <- app_comm_cons, !serve_cons. simpl. apply IH.
Qed.

Lemma getNextBookingNumber_frame (year : Z) (fault : option StoreFault)
    (c : gmap jsstring Z) (k : jsstring) :
  k <> bookingNumberKey ->
  (getNextBookingNumber year fault c).1 !! k = c !! k.
Proof.
  intros Hk. destruct fault as [f|].
  - rewrite getNextBookingNumber_fault. simpl.
    destruct (fault_committed f); [|reflexivity].
    apply lookup_insert_ne. congruence.
  - rewrite getNextBookingNumber_ok. simpl. apply lookup_insert_ne. congruence.
Qed.

Lemma serve_frame (reqs : list Request) : forall (c : gmap jsstring Z) (k : jsstring),
  k <> bookingNumberKey -> (serve reqs c).1 !! k = c !! k.
Proof.
  induction reqs as [|r reqs IH]; intros c k Hk; [reflexivity|].
  rewrite serve_cons. simpl. rewrite IH by exact Hk.
  apply getNextBookingNumber_frame. exact Hk.
Qed.

Lemma neverBelow_is_Some (a b : option Z) : neverBelow a b -> is_Some a -> is_Some b.
Proof.
  unfold neverBelow. intros H [v ->]. destruct b; [eauto | contradiction].
Qed.

Lemma Number_toString_nonneg (v : Z) :
  (0 <= v)%Z -> Number_toString v = decimalDigits (Z.to_N v).
Proof. intros Hv. unfold Number_toString. destruct (Z.ltb_spec v 0); [lia | reflexivity]. Qed.

Lemma Number_toString_length_le (v : Z) (k : nat) :
  (0 <= v)%Z ->
  (length (Number_toString v) <= S k)%nat <-> (v < 10 ^ Z.of_nat (S k))%Z.
Proof.
  intros Hv. rewrite Number_toString_nonneg by exact Hv.
  rewrite decimalDigits_length_le.
  replace (10 ^ Z.of_nat (S k))%Z with (Z.of_N (10 ^ N.of_nat (S k))).
  - lia.
  - rewrite N2Z.inj_pow, nat_N_Z. reflexivity.
Qed.

(** C1 (what the code does where the claim expects 1001). On a collection
    without the [bookingNumber] record, a call that reaches the store creates
    the record with [seq = 1], not with the schema default 1000 followed by an
    increment: the update names the path [seq], so no default is set on
    insert, and [$inc] creates the field with the increment. The booking
    number returned ends in [000001] and its sequence component is 1. *)
Theorem first_call_starts_at_one (year : Z) (c : gmap jsstring Z) :
  c !! bookingNumberKey = None ->
  getNextBookingNumber year None c
  = (<[bookingNumberKey := 1%Z]> c, Fulfilled (bookingNumber year 1))
  /\ sequenceNumber 1 = lit "000001"
  /\ sequenceComponent (bookingNumber year 1) = Some 1%Z.
Proof.
  intros Habsent. rewrite getNextBookingNumber_ok, (nextSeq_absent c Habsent).
  split; [reflexivity|]. split; [reflexivity|].
  apply sequenceComponent_bookingNumber. lia.
Qed.

Lemma first_call_starts_at_one_witness :
  getNextBookingNumber 2025 None ∅
  = (<[bookingNumberKey := 1%Z]> ∅, Fulfilled (bookingNumber 2025 1))
  /\ sequenceNumber 1 = lit "000001"
  /\ sequenceComponent (bookingNumber 2025 1) = Some 1%Z.
Proof. apply (first_call_starts_at_one 2025 ∅). reflexivity. Defined.

Example first_booking_number_2025 :
  (getNextBookingNumber 2025 None ∅).2 = Fulfilled (lit "JY-2025-000001").
Proof. reflexivity. Qed.

(** C3. While the counter is a safe integer before and after the increment,
    a fulfilled call returns [JY-], the decimal rendering of the year read
    from the clock, a hyphen, and the value the counter holds after the
    increment, rendered in decimal and left-padded with zeros to at least six
    characters. A year from 1000 to 9999 renders as four digits. *)
Theorem booking_number_format (year : Z) (fault : option StoreFault)
    (c c' : gmap jsstring Z) (r : jsstring) :
  safeCounter c 1 ->
  getNextBookingNumber year fault c = (c', Fulfilled r) ->
  exists v : Z,
    c' !! bookingNumberKey = Some v
    /\ v = (default 0 (c !! bookingNumberKey) + 1)%Z
    /\ r = lit "JY-" ++ Number_toString year ++ lit "-"
           ++ (replicate (6 - length (Number_toString v)) 48%N ++ Number_toString v)
    /\ (6 <= length (replicate (6 - length (Number_toString v)) 48%N
                     ++ Number_toString v))%nat
    /\ ((1000 <= year <= 9999)%Z ->
        length (Number_toString year) = 4%nat
        /\ Forall (fun ch => isDecimalDigit ch = true) (Number_toString year))
    /\ ((0 <= v)%Z ->
        Forall (fun ch => isDecimalDigit ch = true)
          (replicate (6 - length (Number_toString v)) 48%N ++ Number_toString v)).
Proof.
  intros _ H. apply getNextBookingNumber_fulfilled in H as (_ & -> & ->).
  exists (nextSeq c). split; [apply lookup_insert_eq|]. split; [reflexivity|].
  split; [|split; [|split]].
  - unfold bookingNumber, sequenceNumber. rewrite padStart_zero. reflexivity.
  - rewrite length_app, length_replicate. lia.
  - intros Hy. split.
    + pose proof (proj2 (Number_toString_length_le year 3 ltac:(lia)) ltac:(simpl; lia)) as Hle.
      assert (~ (length (Number_toString year) <= 3)%nat) as Hgt.
      { intros Hc. apply (Number_toString_length_le year 2 ltac:(lia)) in Hc.
        simpl in Hc. lia. }
      lia.
    + rewrite Number_toString_nonneg by lia. apply decimalDigits_digits.
  - intros Hv. pose proof (sequenceNumber_digits (nextSeq c) Hv) as Hd.
    unfold sequenceNumber in Hd. rewrite padStart_zero in Hd. exact Hd.
Qed.

Lemma booking_number_format_witness :
  exists v : Z,
    (<[bookingNumberKey := 1001%Z]> ({[ bookingNumberKey := 1000%Z ]} : gmap jsstring Z))
      !! bookingNumberKey = Some v
    /\ v = (default 0 (({[ bookingNumberKey := 1000%Z ]} : gmap jsstring Z)
                         !! bookingNumberKey) + 1)%Z
    /\ lit "JY-2025-001001"
       = lit "JY-" ++ Number_toString 2025 ++ lit "-"
           ++ (replicate (6 - length (Number_toString v)) 48%N ++ Number_toString v)
    /\ (6 <= length (replicate (6 - length (Number_toString v)) 48%N
                     ++ Number_toString v))%nat
    /\ ((1000 <= 2025 <= 9999)%Z ->
        length (Number_toString 2025) = 4%nat
        /\ Forall (fun ch => isDecimalDigit ch = true) (Number_toString 2025))
    /\ ((0 <= v)%Z ->
        Forall (fun ch => isDecimalDigit ch = true)
          (replicate (6 - length (Number_toString v)) 48%N ++ Number_toString v)).
Proof.
  apply (booking_number_format 2025 None {[ bookingNumberKey := 1000%Z ]}).
  - vm_compute. repeat split; reflexivity.
  - reflexivity.
Defined.

(** The scenario of the specification: from [{seq: 1000}] in 2025 the first
    call returns [JY-2025-001001] and the second [JY-2025-001002]. *)
Example scenario_two_calls :
  (serve [ {| req_year := 2025; req_fault := None |};
           {| req_year := 2025; req_fault := None |} ]
         {[ bookingNumberKey := 1000%Z ]}).2
  = [ Fulfilled (lit "JY-2025-001001"); Fulfilled (lit "JY-2025-001002") ].
Proof. reflexivity. Qed.

(** C4. Over every sequence of calls, failed or not, the stored [seq] of the
    booking counter never decreases; and while the counter stays a safe
    integer over the sequence, of two fulfilled calls the later one returns
    the booking number of a strictly greater value: each fulfilled call
    returns the value the counter holds right after it. Two calls made back
    to back are the sequence of length two. *)
Theorem allocations_strictly_increase (reqs : list Request) (c : gmap jsstring Z) :
  neverBelow (c !! bookingNumberKey) ((serve reqs c).1 !! bookingNumberKey)
  /\ forall (i j : nat) (ri rj : jsstring),
      safeCounter c (length reqs) ->
      (i < j)%nat ->
      (serve reqs c).2 !! i = Some (Fulfilled ri) ->
      (serve reqs c).2 !! j = Some (Fulfilled rj) ->
      exists yi yj vi vj : Z,
        (req_year <$> reqs) !! i = Some yi
        /\ (req_year <$> reqs) !! j = Some yj
        /\ (serve (take (S i) reqs) c).1 !! bookingNumberKey = Some vi
        /\ (serve (take (S j) reqs) c).1 !! bookingNumberKey = Some vj
        /\ ri = bookingNumber yi vi
        /\ rj = bookingNumber yj vj
        /\ (vi < vj)%Z.
Proof.
  split; [apply serve_neverBelow|].
  intros i j ri rj _. revert c i j ri rj.
  induction reqs as [|r reqs IH]; intros c i j ri rj Hij Hi Hj;
    [discriminate|].
  destruct j as [|j]; [lia|]. destruct i as [|i].
  - destruct (serve_fulfilled_at (r :: reqs) c 0 ri Hi) as (yi & vi & Hyi & Hsi & Hri & _).
    rewrite serve_cons in Hj. simpl in Hj.
    destruct (serve_fulfilled_at reqs _ j rj Hj) as (yj & vj & Hyj & Hsj & Hrj & Hlt).
    exists yi, yj, vi, vj. repeat split; try assumption.
    + change (take (S (S j)) (r :: reqs)) with (r :: take (S j) reqs).
      rewrite serve_cons. exact Hsj.
    + apply Hlt. change (take 1 (r :: reqs)) with [r] in Hsi.
      rewrite serve_cons in Hsi. exact Hsi.
  - rewrite serve_cons in Hi, Hj. simpl in Hi, Hj.
    destruct (IH _ i j ri rj ltac:(lia) Hi Hj)
      as (yi & yj & vi & vj & Hyi & Hyj & Hsi & Hsj & Hri & Hrj & Hlt).
    exists yi, yj, vi, vj. repeat split; try assumption.
    + change (take (S (S i)) (r :: reqs)) with (r :: take (S i) reqs).
      rewrite serve_cons. exact Hsi.
    + change (take (S (S j)) (r :: reqs)) with (r :: take (S j) reqs).
      rewrite serve_cons. exact Hsj.
Qed.

Lemma allocations_strictly_increase_witness :
  exists yi yj vi vj : Z,
    Some 2025%Z = Some yi /\ Some 2026%Z = Some yj
    /\ Some 1%Z = Some vi /\ Some 3%Z = Some vj
    /\ lit "JY-2025-000001" = bookingNumber yi vi
    /\ lit "JY-2026-000003" = bookingNumber yj vj
    /\ (vi < vj)%Z.
Proof.
  pose proof (proj2 (allocations_strictly_increase
                       [ {| req_year := 2025; req_fault := None |};
                         {| req_year := 2025;
                            req_fault := Some {| fault_error := networkError;
                                                 fault_committed := true |} |};
                         {| req_year := 2026; req_fault := None |} ] ∅)
                    0%nat 2%nat (lit "JY-2025-000001") (lit "JY-2026-000003"))
    as H.
  assert (Hsafe : safeCounter (∅ : gmap jsstring Z) 3)
    by (vm_compute; repeat split; reflexivity).
  specialize (H Hsafe). specialize (H ltac:(lia)).
  specialize (H eq_refl). specialize (H eq_refl).
  exact H.
Defined.

(** C5, as stated, fails: a call whose command is refused by an unreachable
    store rejects with the driver's own error, here [MongoNetworkError], and
    not with an error named [StorageUnavailable]. *)
Lemma storage_unavailable_counterexample :
  ~ (forall (year : Z) (f : StoreFault) (c : gmap jsstring Z),
        exists e : JSError,
          (getNextBookingNumber year (Some f) c).2 = Rejected e
          /\ name e = lit "StorageUnavailable").
Proof.
  intros H.
  destruct (H 2025%Z {| fault_error := networkError; fault_committed := false |} ∅)
    as (e & He & Hname).
  rewrite getNextBookingNumber_fault in He. simpl in He.
  injection He as <-. discriminate Hname.
Qed.

(** C5 (amended). When the command fails, the call rejects with the very
    error the store client raised, unchanged; the caller receives no booking
    number, and the collection is the one the store left: untouched, or
    incremented when the write had been applied before the failure. *)
Theorem store_failure_propagates (year : Z) (f : StoreFault) (c : gmap jsstring Z) :
  (getNextBookingNumber year (Some f) c).2 = Rejected (fault_error f)
  /\ fulfilledValue (getNextBookingNumber year (Some f) c).2 = None
  /\ (getNextBookingNumber year (Some f) c).1
     = (if fault_committed f then <[bookingNumberKey := nextSeq c]> c else c).
Proof. rewrite getNextBookingNumber_fault. repeat split. Qed.

(** C6. The counter key and the increment do not depend on the year: the
    collection a call leaves behind is the same whatever the clock reads,
    and, while the counter stays a safe integer, of two successive fulfilled
    calls made in different years the second returns the booking number of
    the value one above the first. *)
Theorem sequence_survives_year_change (y1 y2 : Z) (f1 f2 : option StoreFault)
    (c c1 c2 : gmap jsstring Z) (r1 r2 : jsstring) :
  safeCounter c 2 ->
  y1 <> y2 ->
  getNextBookingNumber y1 f1 c = (c1, Fulfilled r1) ->
  getNextBookingNumber y2 f2 c1 = (c2, Fulfilled r2) ->
  exists v1 v2 : Z,
    r1 = bookingNumber y1 v1 /\ r2 = bookingNumber y2 v2
    /\ c1 !! bookingNumberKey = Some v1 /\ c2 !! bookingNumberKey = Some v2
    /\ v2 = (v1 + 1)%Z /\ (v1 < v2)%Z
    /\ forall y : Z, (getNextBookingNumber y f1 c).1 = c1.
Proof.
  intros _ _ H1 H2.
  apply getNextBookingNumber_fulfilled in H1 as (-> & -> & ->).
  apply getNextBookingNumber_fulfilled in H2 as (-> & -> & ->).
  exists (nextSeq c), (nextSeq (<[bookingNumberKey := nextSeq c]> c)).
  assert (nextSeq (<[bookingNumberKey := nextSeq c]> c) = (nextSeq c + 1)%Z) as Hn.
  { apply nextSeq_present, lookup_insert_eq. }
  repeat split.
  - apply lookup_insert_eq.
  - apply lookup_insert_eq.
  - exact Hn.
  - lia.
  - intros y. rewrite getNextBookingNumber_ok. reflexivity.
Qed.

Lemma sequence_survives_year_change_witness :
  exists v1 v2 : Z,
    lit "JY-2025-001001" = bookingNumber 2025 v1
    /\ lit "JY-2026-001002" = bookingNumber 2026 v2
    /\ ({[ bookingNumberKey := 1001%Z ]} : gmap jsstring Z) !! bookingNumberKey = Some v1
    /\ ({[ bookingNumberKey := 1002%Z ]} : gmap jsstring Z) !! bookingNumberKey = Some v2
    /\ v2 = (v1 + 1)%Z /\ (v1 < v2)%Z
    /\ forall y : Z,
        (getNextBookingNumber y None {[ bookingNumberKey := 1000%Z ]}).1
        = {[ bookingNumberKey := 1001%Z ]}.
Proof.
  apply (sequence_survives_year_change 2025 2026 None None
           {[ bookingNumberKey := 1000%Z ]} _ _ _ _).
  - vm_compute. repeat split; reflexivity.
  - discriminate.
  - reflexivity.
  - reflexivity.
Defined.

(** C7. Padding never truncates. Of the counter values that are safe
    integers and not negative, one below 10^6, that is one of at most six
    decimal digits, renders as exactly six characters: its decimal digits
    behind as many zeros as are missing. A value of seven or more digits
    renders as its decimal representation, unchanged. *)
Theorem padding_never_truncates (v : Z) :
  (0 <= v < 2 ^ 53)%Z ->
  ((length (Number_toString v) <= 6)%nat <-> (v < 1000000)%Z)
  /\ ((v < 1000000)%Z ->
      length (sequenceNumber v) = 6%nat
      /\ sequenceNumber v
         = replicate (6 - length (Number_toString v)) 48%N ++ Number_toString v)
  /\ ((1000000 <= v)%Z ->
      sequenceNumber v = Number_toString v
      /\ (6 < length (sequenceNumber v))%nat).
Proof.
  intros [Hv _].
  pose proof (Number_toString_length_le v 5 Hv) as Hlen.
  change (10 ^ Z.of_nat 6)%Z with 1000000%Z in Hlen.
  unfold sequenceNumber. rewrite padStart_zero.
  split; [exact Hlen|]. split.
  - intros Hlt. apply Hlen in Hlt. split; [|reflexivity].
    rewrite length_app, length_replicate. lia.
  - intros Hge.
    assert (6 < length (Number_toString v))%nat as Hgt by lia.
    replace (6 - length (Number_toString v))%nat with 0%nat by lia.
    split; [reflexivity | exact Hgt].
Qed.

Lemma padding_never_truncates_witness :
  (length (sequenceNumber 7) = 6%nat
   /\ sequenceNumber 7
      = replicate (6 - length (Number_toString 7)) 48%N ++ Number_toString 7)
  /\ (sequenceNumber 1234567 = Number_toString 1234567
      /\ (6 < length (sequenceNumber 1234567))%nat).
Proof.
  split.
  - apply (proj1 (proj2 (padding_never_truncates 7 ltac:(split; [lia | reflexivity])))).
    lia.
  - apply (proj2 (proj2 (padding_never_truncates 1234567
                           ltac:(split; [lia | reflexivity])))).
    lia.
Defined.

Example sequenceNumber_7 : sequenceNumber 7 = lit "000007".
Proof. reflexivity. Qed.

Example sequenceNumber_1234567 : sequenceNumber 1234567 = lit "1234567".
Proof. reflexivity. Qed.

(** C8. No sequence of calls deletes a record: every [_id] present before
    is present after, the records other than the booking counter are left
    as they were, and once a call has been fulfilled the booking counter
    exists. The one field a call writes is [seq]. *)
Theorem counter_record_never_deleted (reqs : list Request) (c : gmap jsstring Z) :
  dom c ⊆ dom (serve reqs c).1
  /\ (forall k : jsstring, k <> bookingNumberKey -> (serve reqs c).1 !! k = c !! k)
  /\ (forall r : jsstring,
        Fulfilled r ∈ (serve reqs c).2 ->
        is_Some ((serve reqs c).1 !! bookingNumberKey)).
Proof.
  split; [|split].
  - intros k Hk. apply elem_of_dom. apply elem_of_dom in Hk.
    destruct (decide (k = bookingNumberKey)) as [->|Hne].
    + exact (neverBelow_is_Some _ _ (serve_neverBelow reqs c) Hk).
    + rewrite serve_frame by exact Hne. exact Hk.
  - intros k Hk. apply serve_frame. exact Hk.
  - intros r Hr. apply list_elem_of_lookup in Hr as [j Hj].
    destruct (serve_fulfilled_at reqs c j r Hj) as (yj & vj & _ & Hs & _ & _).
    rewrite <- (take_drop (S j) reqs), serve_app.
    eapply neverBelow_is_Some; [apply serve_neverBelow|].
    rewrite Hs. eauto.
Qed.

Lemma counter_record_never_deleted_witness :
  is_Some ((serve [ {| req_year := 2025; req_fault := None |};
                    {| req_year := 2025;
                       req_fault := Some {| fault_error := networkError;
                                            fault_committed := false |} |} ]
                  (∅ : gmap jsstring Z)).1 !! bookingNumberKey).
Proof.
  apply (proj2 (proj2 (counter_record_never_deleted _ ∅)) (lit "JY-2025-000001")).
  apply list_elem_of_here.
Defined.

(** ** sanitizeString *)

Lemma dropWhile_idempotent {A} (p : A -> bool) (l : list A) :
  dropWhile p (dropWhile p l) = dropWhile p l.
Proof. apply dropWhile_fixed, dropWhile_head. Qed.

(** Dropping at both ends reaches a fixed point in one pass. *)
Lemma trim_both_ends_idempotent {A} (p : A -> bool) (s : list A) :
  let trim l := rev (dropWhile p (rev (dropWhile p l))) in
  trim (trim s) = trim s.
Proof.
  cbv beta zeta.
  set (a := dropWhile p s). set (b := dropWhile p (rev a)).
  assert (dropWhile p (rev b) = rev b) as Hfront.
  { apply dropWhile_fixed.
    destruct (dropWhile_suffix p (rev a)) as [w Hw]. fold b in Hw.
    apply (f_equal (@rev A)) in Hw. rewrite rev_involutive, rev_app_distr in Hw.
    destruct (rev b) as [|x t]; [exact I|].
    pose proof (dropWhile_head p s) as Hh. fold a in Hh. rewrite Hw in Hh.
    exact Hh. }
  rewrite Hfront, rev_involutive. unfold b at 1.
  rewrite dropWhile_idempotent. reflexivity.
Qed.

Lemma String_trim_idempotent (s : jsstring) :
  String_trim (String_trim s) = String_trim s.
Proof. apply (trim_both_ends_idempotent isStrWhiteSpaceChar s). Qed.

Lemma String_trim_Forall (P : N -> Prop) (s : jsstring) :
  Forall P s -> Forall P (String_trim s).
Proof.
  intros H. unfold String_trim.
  apply Forall_rev, dropWhile_Forall, Forall_rev, dropWhile_Forall, H.
Qed.

Lemma String_replace_all_Forall (P : N -> Prop) (pat : N) (rep s : jsstring) :
  Forall P rep ->
  Forall (fun c => c <> pat -> P c) s ->
  Forall P (String_replace_all pat rep s).
Proof.
  intros Hrep Hs. unfold String_replace_all.
  induction Hs as [|c s Hc Hs IH]; simpl; [constructor|].
  apply Forall_app. split; [|exact IH].
  destruct (N.eqb_spec c pat) as [->|Hne]; [exact Hrep|].
  constructor; [exact (Hc Hne) | constructor].
Qed.

(** After the replacement the pattern no longer occurs, provided the
    replacement text does not contain it. *)
Lemma String_replace_all_removes (pat : N) (rep s : jsstring) :
  Forall (fun c => c <> pat) rep ->
  Forall (fun c => c <> pat) (String_replace_all pat rep s).
Proof.
  intros Hrep. apply String_replace_all_Forall; [exact Hrep|].
  apply Forall_forall. intros c _ Hc. exact Hc.
Qed.

(** A character absent from the string and from the replacement text stays
    absent. *)
Lemma String_replace_all_keeps (d pat : N) (rep s : jsstring) :
  Forall (fun c => c <> d) rep ->
  Forall (fun c => c <> d) s ->
  Forall (fun c => c <> d) (String_replace_all pat rep s).
Proof.
  intros Hrep Hs. apply String_replace_all_Forall; [exact Hrep|].
  eapply Forall_impl; [exact Hs|]. intros c Hc _. exact Hc.
Qed.

(** Where the pattern does not occur the replacement is the identity. *)
Lemma String_replace_all_absent (pat : N) (rep s : jsstring) :
  Forall (fun c => c <> pat) s -> String_replace_all pat rep s = s.
Proof.
  intros Hs. unfold String_replace_all.
  induction Hs as [|c s Hc Hs IH]; simpl; [reflexivity|].
  destruct (N.eqb_spec c pat) as [Heq|_]; [contradiction|].
  simpl. f_equal. exact IH.
Qed.

(** The characters the escaping replaces. *)
Lemma escapes_free_of (d : N) :
  d ∈ [60; 62; 34; 39; 47]%N ->
  Forall (fun c => c <> d) (lit "&lt;")
  /\ Forall (fun c => c <> d) (lit "&gt;")
  /\ Forall (fun c => c <> d) (lit "&quot;")
  /\ Forall (fun c => c <> d) (lit "&#x27;")
  /\ Forall (fun c => c <> d) (lit "&#x2F;").
Proof.
  intros Hd. repeat (apply elem_of_cons in Hd as [->|Hd]);
    [| | | | | apply elem_of_nil in Hd; contradiction];
    repeat split; repeat constructor; discriminate.
Qed.

Ltac escaped_absent d :=
  let H := fresh "Hfree" in
  assert (d ∈ [60; 62; 34; 39; 47]%N) as H by (repeat constructor);
  destruct (escapes_free_of d H) as (? & ? & ? & ? & ?);
  apply String_trim_Forall;
  repeat first
    [ apply String_replace_all_removes; assumption
    | apply String_replace_all_keeps; [assumption|] ].

Lemma sanitizeString_escaped (input : jsstring) (d : N) :
  d ∈ [60; 62; 34; 39; 47]%N ->
  Forall (fun c => c <> d) (sanitizeString input).
Proof.
  intros Hd. unfold sanitizeString.
  repeat (apply elem_of_cons in Hd as [->|Hd]);
    [| | | | | apply elem_of_nil in Hd; contradiction].
  - escaped_absent 60%N.
  - escaped_absent 62%N.
  - escaped_absent 34%N.
  - escaped_absent 39%N.
  - escaped_absent 47%N.
Qed.

(** C9. [sanitizeString] is idempotent: its result contains none of the five
    characters it escapes, since no replacement text contains one of them, so
    a second pass replaces nothing, and trimming a trimmed string changes
    nothing. *)
Theorem sanitizeString_idempotent (s : jsstring) :
  sanitizeString (sanitizeString s) = sanitizeString s.
Proof.
  assert (forall d, d ∈ [60; 62; 34; 39; 47]%N ->
                    Forall (fun c => c <> d) (sanitizeString s)) as Hfree
    by (intros d Hd; apply sanitizeString_escaped, Hd).
  unfold sanitizeString at 1.
  rewrite (String_replace_all_absent 60) by (apply Hfree; repeat constructor).
  rewrite (String_replace_all_absent 62) by (apply Hfree; repeat constructor).
  rewrite (String_replace_all_absent 34) by (apply Hfree; repeat constructor).
  rewrite (String_replace_all_absent 39) by (apply Hfree; repeat constructor).
  rewrite (String_replace_all_absent 47) by (apply Hfree; repeat constructor).
  unfold sanitizeString. apply String_trim_idempotent.
Qed.

Example sanitizeString_script :
  sanitizeString (lit " <script>alert('XSS')</script> ")
  = lit "&lt;script&gt;alert(&#x27;XSS&#x27;)&lt;&#x2F;script&gt;".
Proof. reflexivity. Qed.

(** ** paginationQuerySchema *)

Lemma pageTransform_cases (val : option jsstring) :
  pageTransform val
  = match val with
    | Some s => match parseInt10 s with
                | Some n => if (n <? 1)%Z then 1%Z else n
                | None => 1%Z
                end
    | None => 1%Z
    end.
Proof. destruct val as [[|ch s]|]; reflexivity. Qed.

Lemma limitTransform_cases (val : option jsstring) :
  limitTransform val
  = match val with
    | Some s => match parseInt10 s with
                | Some n => if (n <? 1)%Z then 10%Z else Z.min n 100
                | None => 10%Z
                end
    | None => 10%Z
    end.
Proof. destruct val as [[|ch s]|]; reflexivity. Qed.

Lemma pageTransform_bound (val : option jsstring) : (1 <= pageTransform val)%Z.
Proof.
  rewrite pageTransform_cases. destruct val as [s|]; [|lia].
  destruct (parseInt10 s) as [n|]; [|lia].
  destruct (Z.ltb_spec n 1); lia.
Qed.

Lemma limitTransform_bound (val : option jsstring) :
  (1 <= limitTransform val <= 100)%Z.
Proof.
  rewrite limitTransform_cases. destruct val as [s|]; [|lia].
  destruct (parseInt10 s) as [n|]; [|lia].
  destruct (Z.ltb_spec n 1); lia.
Qed.

Lemma zStringOptional_accepts (path : jsstring) (v : option QueryValue)
    (val : option jsstring) :
  zStringOptional path v = inr val ->
  val = match v with Some (QString s) => Some s | _ => None end.
Proof. destruct v as [[s|items|fields]|]; simpl; intros H; inversion H; reflexivity. Qed.

(** C10. Whatever query the schema accepts, the parsed page is at least 1
    and the parsed limit lies between 1 and 100. A missing key, a text
    [parseInt] cannot read and a number below 1 give page 1 and limit 10; a
    limit above 100 becomes 100; other numbers are kept. *)
Theorem pagination_bounds (query : gmap jsstring QueryValue) (out : PaginationQuery) :
  paginationQuerySchema query = inr out ->
  (1 <= page out)%Z
  /\ (1 <= limit out <= 100)%Z
  /\ page out
     = match query !! lit "page" with
       | Some (QString s) =>
           match parseInt10 s with
           | Some n => if (n <? 1)%Z then 1%Z else n
           | None => 1%Z
           end
       | _ => 1%Z
       end
  /\ limit out
     = match query !! lit "limit" with
       | Some (QString s) =>
           match parseInt10 s with
           | Some n => if (n <? 1)%Z then 10%Z else if (100 <? n)%Z then 100%Z else n
           | None => 10%Z
           end
       | _ => 10%Z
       end.
Proof.
  unfold paginationQuerySchema. intros H.
  destruct (zStringOptional (lit "page") (query !! lit "page")) as [ip|p] eqn:Ep;
    destruct (zStringOptional (lit "limit") (query !! lit "limit")) as [il|l] eqn:El;
    inversion H; subst out; clear H. simpl.
  apply zStringOptional_accepts in Ep, El.
  split; [apply pageTransform_bound|]. split; [apply limitTransform_bound|].
  rewrite pageTransform_cases, limitTransform_cases. subst p l.
  split.
  - destruct (query !! lit "page") as [[s|items|fields]|]; reflexivity.
  - destruct (query !! lit "limit") as [[s|items|fields]|]; try reflexivity.
    destruct (parseInt10 s) as [n|]; [|reflexivity].
    destruct (Z.ltb_spec n 1); [reflexivity|].
    destruct (Z.ltb_spec 100 n); lia.
Qed.

Lemma pagination_bounds_witness :
  (1 <= 1)%Z /\ (1 <= 100 <= 100)%Z
  /\ 1%Z = match ({[ lit "page" := QString (lit " -3");
                     lit "limit" := QString (lit "250 rows") ]}
                    : gmap jsstring QueryValue) !! lit "page" with
           | Some (QString s) =>
               match parseInt10 s with
               | Some n => if (n <? 1)%Z then 1%Z else n
               | None => 1%Z
               end
           | _ => 1%Z
           end
  /\ 100%Z = match ({[ lit "page" := QString (lit " -3");
                       lit "limit" := QString (lit "250 rows") ]}
                      : gmap jsstring QueryValue) !! lit "limit" with
             | Some (QString s) =>
                 match parseInt10 s with
                 | Some n =>
                     if (n <? 1)%Z then 10%Z else if (100 <? n)%Z then 100%Z else n
                 | None => 10%Z
                 end
             | _ => 10%Z
             end.
Proof.
  apply (pagination_bounds
           {[ lit "page" := QString (lit " -3");
              lit "limit" := QString (lit "250 rows") ]}
           {| page := 1; limit := 100 |}).
  reflexivity.
Defined.

Example pagination_defaults :
  paginationQuerySchema ∅ = inr {| page := 1; limit := 10 |}.
Proof. reflexivity. Qed.

Example pagination_repeated_parameter :
  paginationQuerySchema {[ lit "page" := QArray [lit "1"; lit "2"] ]}
  = inl [ {| issue_path := lit "page"; issue_code := lit "invalid_type" |} ].
Proof. reflexivity. Qed.

(** ** Concurrent calls *)

Lemma omap_insert_same {A B} (f : A -> option B) (l : list A) (i : nat) (x y : A) :
  l !! i = Some x -> f y = f x -> omap f (<[i := y]> l) = omap f l.
Proof.
  revert i. induction l as [|a l IH]; intros i Hi Hf; [discriminate|].
  destruct i as [|i]; simpl in *.
  - injection Hi as ->. rewrite Hf. reflexivity.
  - destruct (f a) as [w|]; [f_equal|]; exact (IH i Hi Hf).
Qed.

Lemma omap_insert_new {A B} (f : A -> option B) (l : list A) (i : nat) (x y : A)
    (v : B) :
  l !! i = Some x -> f x = None -> f y = Some v ->
  omap f (<[i := y]> l) ≡ₚ v :: omap f l.
Proof.
  revert i. induction l as [|a l IH]; intros i Hi Hx Hy; [discriminate|].
  destruct i as [|i]; simpl in *.
  - injection Hi as ->. rewrite Hx, Hy. reflexivity.
  - destruct (f a) as [w|].
    + etransitivity; [apply perm_skip, (IH i Hi Hx Hy) | apply perm_swap].
    + exact (IH i Hi Hx Hy).
Qed.

Lemma omap_total_length {A B} (f : A -> option B) (l : list A) :
  Forall (fun a => is_Some (f a)) l -> length (omap f l) = length l.
Proof.
  induction 1 as [|a l [w Hw] Hl IH]; simpl; [reflexivity|].
  rewrite Hw. simpl. f_equal. exact IH.
Qed.

Lemma omap_ext_Forall {A B} (f g : A -> option B) (l : list A) :
  Forall (fun a => f a = g a) l -> omap f l = omap g l.
Proof.
  induction 1 as [|a l Ha Hl IH]; simpl; [reflexivity|].
  rewrite Ha. destruct (g a) as [w|]; [f_equal|]; exact IH.
Qed.

Lemma elem_of_omap_lookup {A B} (f : A -> option B) (l : list A) (i : nat) (x : A)
    (v : B) :
  l !! i = Some x -> f x = Some v -> v ∈ omap f l.
Proof.
  intros Hi Hx. apply list_elem_of_omap. exists x. split; [|exact Hx].
  apply list_elem_of_lookup. eauto.
Qed.

Lemma step_length (e : Event) (σ : System) :
  length (calls (step e σ)) = length (calls σ).
Proof.
  unfold step. destruct (calls σ !! ev_call e) as [[| y | y counter | r]|];
    try reflexivity; simpl; try apply length_insert.
  rewrite findOneAndUpdate_booking. simpl. apply length_insert.
Qed.

Lemma run_length (schedule : list Event) : forall σ : System,
  length (calls (run schedule σ)) = length (calls σ).
Proof.
  induction schedule as [|e schedule IH]; intros σ; [reflexivity|].
  simpl. rewrite IH. apply step_length.
Qed.

(** One call running alone is [getNextBookingNumber]. *)
Lemma run_single_call (year y' y'' : Z) (c : gmap jsstring Z) :
  run [ {| ev_call := 0; ev_now := year |};
        {| ev_call := 0; ev_now := y' |};
        {| ev_call := 0; ev_now := y'' |} ]
      {| db := c; calls := [NotCalled] |}
  = {| db := (getNextBookingNumber year None c).1;
       calls := [Returned (getNextBookingNumber year None c).2] |}.
Proof.
  rewrite getNextBookingNumber_ok. unfold run, step. simpl.
  rewrite findOneAndUpdate_booking. reflexivity.
Qed.

Section FromBase.

Variable b : Z.
Hypothesis b_nonneg : (0 <= b)%Z.

Lemma consistent_start (n : nat) : consistent b (startWith b n).
Proof.
  exists 0%nat. simpl. split; [|split].
  - rewrite lookup_singleton_eq. f_equal. lia.
  - induction n as [|n IH]; simpl; [reflexivity | exact IH].
  - apply Forall_replicate. discriminate.
Qed.

Lemma consistent_drawn_nonneg (σ : System) (i : nat) (s : CallState) (v : Z) :
  consistent b σ -> calls σ !! i = Some s -> drawn s = Some v -> (0 <= v)%Z.
Proof using b_nonneg.
  intros (k & _ & Hperm & _) Hi Hs.
  pose proof (elem_of_omap_lookup drawn _ i s v Hi Hs) as Hin.
  rewrite Hperm in Hin. apply list_elem_of_fmap in Hin as (j & -> & _). lia.
Qed.

Lemma consistent_step (e : Event) (σ : System) :
  consistent b σ -> consistent b (step e σ).
Proof using b_nonneg.
  intros Hc. pose proof Hc as (k & Hdb & Hperm & Hpast).
  unfold step. destruct (calls σ !! ev_call e) as [s|] eqn:Hi; [|exact Hc].
  destruct s as [| year | year counter | r]; [| | |exact Hc].
  - exists k. simpl. split; [exact Hdb|]. split.
    + rewrite (omap_insert_same drawn _ _ NotCalled) by (exact Hi || reflexivity).
      exact Hperm.
    + apply Forall_insert; [exact Hpast | discriminate].
  - rewrite findOneAndUpdate_booking.
    rewrite (nextSeq_present _ _ Hdb).
    exists (S k). simpl db. simpl calls. split; [|split].
    + rewrite lookup_insert_eq. f_equal. lia.
    + rewrite (omap_insert_new drawn _ _ (Awaiting year) _ (b + Z.of_nat k + 1)%Z)
        by (exact Hi || reflexivity).
      rewrite Hperm, List.seq_S, fmap_app. simpl.
      replace (b + Z.of_nat k + 1)%Z with (b + Z.of_nat (S k))%Z by lia.
      apply Permutation_cons_append.
    + apply Forall_insert; [exact Hpast|]. intros _. simpl. eauto.
  - exists k. simpl. split; [exact Hdb|].
    pose proof (proj1 (Forall_lookup _ _) Hpast _ _ Hi eq_refl) as [v Hv].
    assert (drawn (Returned (formatCounter year counter)) = Some v) as Hret.
    { destruct counter as [doc|]; [|discriminate Hv].
      simpl in Hv. injection Hv as <-. simpl.
      apply sequenceComponent_bookingNumber.
      apply (consistent_drawn_nonneg σ _ _ _ Hc Hi eq_refl). }
    split.
    + rewrite (omap_insert_same drawn _ _ (Replied year counter))
        by (exact Hi || congruence).
      exact Hperm.
    + apply Forall_insert; [exact Hpast|]. intros _. rewrite Hret. eauto.
Qed.

Lemma consistent_run (schedule : list Event) : forall σ : System,
  consistent b σ -> consistent b (run schedule σ).
Proof using b_nonneg.
  induction schedule as [|e schedule IH]; intros σ Hc; [exact Hc|].
  simpl. apply IH, consistent_step, Hc.
Qed.

(** Once every call has returned, the values returned are the whole
    range. *)
Lemma consistent_all_returned (σ : System) :
  consistent b σ ->
  Forall (fun s => isReturned s = true) (calls σ) ->
  returnedSequences σ
    ≡ₚ (fun i => (b + Z.of_nat i)%Z) <$> List.seq 1 (length (calls σ))
  /\ db σ !! bookingNumberKey = Some (b + Z.of_nat (length (calls σ)))%Z.
Proof.
  intros (k & Hdb & Hperm & Hpast) Hret.
  assert (omap drawn (calls σ) = returnedSequences σ) as Hsame.
  { apply omap_ext_Forall. eapply Forall_impl; [exact Hret|].
    intros [| | |r]; try discriminate. reflexivity. }
  assert (length (omap drawn (calls σ)) = length (calls σ)) as Hlen.
  { apply omap_total_length, Forall_forall. intros s Hs.
    pose proof (proj1 (Forall_forall _ _) Hret s Hs) as Hr.
    pose proof (proj1 (Forall_forall _ _) Hpast s Hs) as Hp.
    destruct s as [| | |r]; try discriminate. apply Hp. reflexivity. }
  rewrite Hperm, length_fmap, List.length_seq in Hlen. subst k.
  rewrite <- Hsame. split; [exact Hperm | exact Hdb].
Qed.

End FromBase.

(** *** Progress: a call returns once it has been scheduled three times *)

Lemma step_other (e : Event) (σ : System) (i : nat) :
  i <> ev_call e -> calls (step e σ) !! i = calls σ !! i.
Proof.
  intros Hne. unfold step.
  destruct (calls σ !! ev_call e) as [[| y | y counter | r]|]; try reflexivity;
    simpl; try (apply list_lookup_insert_ne; congruence).
  rewrite findOneAndUpdate_booking. simpl. apply list_lookup_insert_ne. congruence.
Qed.

Lemma step_self (e : Event) (σ : System) (s : CallState) :
  calls σ !! ev_call e = Some s ->
  exists s', calls (step e σ) !! ev_call e = Some s'
             /\ rank s' = Nat.min 3 (S (rank s)).
Proof.
  intros Hs. pose proof (lookup_lt_Some _ _ _ Hs) as Hlt.
  unfold step. rewrite Hs. destruct s as [| y | y counter | r].
  - eexists. split; [apply list_lookup_insert_eq, Hlt | reflexivity].
  - rewrite findOneAndUpdate_booking.
    eexists. split; [apply list_lookup_insert_eq, Hlt | reflexivity].
  - eexists. split; [apply list_lookup_insert_eq, Hlt | reflexivity].
  - eexists. split; [exact Hs | reflexivity].
Qed.

Lemma run_rank (schedule : list Event) : forall (σ : System) (i : nat) (s : CallState),
  calls σ !! i = Some s ->
  exists s', calls (run schedule σ) !! i = Some s'
             /\ rank s' = Nat.min 3 (rank s + timesScheduled i schedule).
Proof.
  induction schedule as [|e schedule IH]; intros σ i s Hs.
  - exists s. split; [exact Hs|]. simpl. destruct s; reflexivity.
  - change (run (e :: schedule) σ) with (run schedule (step e σ)).
    change (timesScheduled i (e :: schedule))
      with ((if Nat.eqb (ev_call e) i then 1 else 0) + timesScheduled i schedule)%nat.
    destruct (Nat.eqb_spec (ev_call e) i) as [<-|Hne].
    + destruct (step_self e σ s Hs) as (s1 & Hs1 & Hr1).
      destruct (IH _ _ _ Hs1) as (s' & Hs' & Hr').
      exists s'. split; [exact Hs'|]. lia.
    + rewrite <- (step_other e σ i) in Hs by congruence.
      destruct (IH _ _ _ Hs) as (s' & Hs' & Hr').
      exists s'. split; [exact Hs'|]. lia.
Qed.

(** Under a schedule that lets each of the [n] calls take its three steps,
    every call returns. *)
Lemma run_all_returned (v : Z) (n : nat) (schedule : list Event) :
  (forall i, (i < n)%nat -> (3 <= timesScheduled i schedule)%nat) ->
  Forall (fun s => isReturned s = true) (calls (run schedule (startWith v n))).
Proof.
  intros Hfair. apply Forall_lookup. intros i s Hs.
  assert (i < n)%nat as Hi.
  { apply lookup_lt_Some in Hs. rewrite run_length in Hs. simpl in Hs.
    rewrite length_replicate in Hs. exact Hs. }
  destruct (run_rank schedule (startWith v n) i NotCalled) as (s' & Hs' & Hr).
  { simpl. apply lookup_replicate_2. exact Hi. }
  rewrite Hs in Hs'. injection Hs' as <-.
  specialize (Hfair i Hi). change (rank NotCalled) with 0%nat in Hr.
  destruct s; unfold rank in Hr; try lia. reflexivity.
Qed.

(** From a counter record holding [b]: every call returns and the values
    returned are [b + 1, ..., b + n]. *)
Lemma run_draws_consecutive (b : Z) (n : nat) (schedule : list Event) :
  (0 <= b)%Z ->
  (forall i, (i < n)%nat -> (3 <= timesScheduled i schedule)%nat) ->
  Forall (fun s => isReturned s = true) (calls (run schedule (startWith b n)))
  /\ returnedSequences (run schedule (startWith b n))
       ≡ₚ (fun i => (b + Z.of_nat i)%Z) <$> List.seq 1 n
  /\ NoDup (returnedSequences (run schedule (startWith b n))).
Proof.
  intros Hb Hfair. pose proof (run_all_returned b n schedule Hfair) as Hret.
  split; [exact Hret|].
  assert (length (calls (run schedule (startWith b n))) = n) as Hn.
  { rewrite run_length. simpl. apply length_replicate. }
  destruct (consistent_all_returned b _
              (consistent_run b Hb schedule _ (consistent_start b n))
              Hret) as [Hperm _].
  rewrite Hn in Hperm. split; [exact Hperm|].
  rewrite Hperm. apply NoDup_fmap_2_strong.
  - intros i j _ _ Hij. lia.
  - apply NoDup_ListNoDup, List.seq_NoDup.
Qed.

(** What the calls do depends on the collection only through the value the
    next increment yields. *)
Lemma step_same_calls (e : Event) (σ σ' : System) :
  calls σ = calls σ' -> nextSeq (db σ) = nextSeq (db σ') ->
  calls (step e σ) = calls (step e σ')
  /\ nextSeq (db (step e σ)) = nextSeq (db (step e σ')).
Proof.
  intros Hcalls Hnext. unfold step. rewrite <- Hcalls.
  destruct (calls σ !! ev_call e) as [[| year | year counter | r]|]; simpl;
    try (split; [congruence | exact Hnext]).
  rewrite !findOneAndUpdate_booking. simpl. rewrite !nextSeq_insert_eq, Hnext.
  split; [congruence | reflexivity].
Qed.

Lemma run_same_calls (schedule : list Event) : forall σ σ' : System,
  calls σ = calls σ' -> nextSeq (db σ) = nextSeq (db σ') ->
  calls (run schedule σ) = calls (run schedule σ').
Proof.
  induction schedule as [|e schedule IH]; intros σ σ' Hcalls Hnext; [exact Hcalls|].
  destruct (step_same_calls e σ σ' Hcalls Hnext) as [Hc Hn].
  simpl. apply IH; assumption.
Qed.

(** The calls made on a collection without the record are those made on a
    record holding 0. *)
Lemma run_fresh_as_zero (n : nat) (schedule : list Event) :
  calls (run schedule (startFresh n)) = calls (run schedule (startWith 0 n)).
Proof. apply run_same_calls; reflexivity. Qed.

(** C2 (what the code does where the claim expects 1001 to 1000 + n). Take
    [n] concurrent calls, the store executing each command atomically, under
    any schedule that lets every call take its three steps, that is under
    every interleaving of the calls. All [n] calls return and the numeric
    sequence values they return are consecutive, without duplicate and
    without gap; but on a fresh counter, the record not yet created, they
    are 1, ..., n and not 1001, ..., 1000 + n, since the first increment
    creates the record with [seq = 1]. They are 1001, ..., 1000 + n on a
    record that already holds 1000. The number of calls is such that the
    counter stays a safe integer. *)
Theorem concurrent_calls_fresh_counter (n : nat) (schedule : list Event) :
  (1000 + Z.of_nat n < 2 ^ 53)%Z ->
  (forall i, (i < n)%nat -> (3 <= timesScheduled i schedule)%nat) ->
  (Forall (fun s => isReturned s = true) (calls (run schedule (startFresh n)))
   /\ returnedSequences (run schedule (startFresh n))
        ≡ₚ (fun i => Z.of_nat i) <$> List.seq 1 n
   /\ NoDup (returnedSequences (run schedule (startFresh n))))
  /\ (Forall (fun s => isReturned s = true) (calls (run schedule (startWith 1000 n)))
      /\ returnedSequences (run schedule (startWith 1000 n))
           ≡ₚ (fun i => (1000 + Z.of_nat i)%Z) <$> List.seq 1 n
      /\ NoDup (returnedSequences (run schedule (startWith 1000 n)))).
Proof.
  intros _ Hfair. split; [|apply run_draws_consecutive; [lia | exact Hfair]].
  unfold returnedSequences. rewrite run_fresh_as_zero.
  exact (run_draws_consecutive 0 n schedule ltac:(lia) Hfair).
Qed.

Lemma concurrent_calls_fresh_counter_witness :
  let schedule :=
    [ {| ev_call := 1; ev_now := 2025 |}; {| ev_call := 0; ev_now := 2025 |};
      {| ev_call := 0; ev_now := 2026 |}; {| ev_call := 1; ev_now := 2026 |};
      {| ev_call := 1; ev_now := 2026 |}; {| ev_call := 0; ev_now := 2026 |} ] in
  (Forall (fun s => isReturned s = true) (calls (run schedule (startFresh 2)))
   /\ returnedSequences (run schedule (startFresh 2))
        ≡ₚ (fun i => Z.of_nat i) <$> List.seq 1 2
   /\ NoDup (returnedSequences (run schedule (startFresh 2))))
  /\ (Forall (fun s => isReturned s = true) (calls (run schedule (startWith 1000 2)))
      /\ returnedSequences (run schedule (startWith 1000 2))
           ≡ₚ (fun i => (1000 + Z.of_nat i)%Z) <$> List.seq 1 2
      /\ NoDup (returnedSequences (run schedule (startWith 1000 2)))).
Proof.
  cbv zeta. apply concurrent_calls_fresh_counter.
  - reflexivity.
  - intros [|[|i]] Hi; [vm_compute; lia | vm_compute; lia | lia].
Defined.

(** Two concurrent calls on a collection without the counter record. *)
Example interleaved_two_calls_fresh :
  calls (run [ {| ev_call := 1; ev_now := 2025 |}; {| ev_call := 0; ev_now := 2025 |};
               {| ev_call := 0; ev_now := 2026 |}; {| ev_call := 1; ev_now := 2026 |};
               {| ev_call := 1; ev_now := 2026 |}; {| ev_call := 0; ev_now := 2026 |} ]
             (startFresh 2))
  = [ Returned (Fulfilled (lit "JY-2025-000001"));
      Returned (Fulfilled (lit "JY-2025-000002")) ].
Proof. reflexivity. Qed.

(** An interleaving in which the call that started second draws 1001. *)
Example interleaved_two_calls :
  calls (run [ {| ev_call := 1; ev_now := 2025 |}; {| ev_call := 0; ev_now := 2025 |};
               {| ev_call := 0; ev_now := 2026 |}; {| ev_call := 1; ev_now := 2026 |};
               {| ev_call := 1; ev_now := 2026 |}; {| ev_call := 0; ev_now := 2026 |} ]
             (startWith 1000 2))
  = [ Returned (Fulfilled (lit "JY-2025-001001"));
      Returned (Fulfilled (lit "JY-2025-001002")) ].
Proof. reflexivity. Qed.

(* ====================================================================== *)
(** * Part III: further properties of the modelled code *)
(* ====================================================================== *)

(** ** The booking counter, continued *)

Lemma nextSeq_insert (c : gmap jsstring Z) (v : Z) :
  nextSeq (<[bookingNumberKey := v]> c) = (v + 1)%Z.
Proof. apply nextSeq_present, lookup_insert_eq. Qed.

Lemma getNextBookingNumber_nextSeq (year : Z) (fault : option StoreFault)
    (c : gmap jsstring Z) :
  (nextSeq c <= nextSeq (getNextBookingNumber year fault c).1)%Z.
Proof.
  destruct fault as [f|].
  - rewrite getNextBookingNumber_fault. simpl.
    destruct (fault_committed f); [rewrite nextSeq_insert|]; lia.
  - rewrite getNextBookingNumber_ok. simpl. rewrite nextSeq_insert. lia.
Qed.

(** The values behind two fulfilled results of one sequence of calls. *)
Lemma serve_fulfilled_pair (reqs : list Request) :
  forall (c : gmap jsstring Z) (i j : nat) (ri rj : jsstring),
  (i < j)%nat ->
  (serve reqs c).2 !! i = Some (Fulfilled ri) ->
  (serve reqs c).2 !! j = Some (Fulfilled rj) ->
  exists yi yj vi vj : Z,
    ri = bookingNumber yi vi /\ rj = bookingNumber yj vj
    /\ (nextSeq c <= vi)%Z /\ (vi < vj)%Z.
Proof.
  induction reqs as [|r reqs IH]; intros c i j ri rj Hij Hi Hj; [discriminate|].
  destruct j as [|j]; [lia|].
  rewrite serve_cons in Hi, Hj. simpl in Hj. destruct i as [|i]; simpl in Hi.
  - destruct (getNextBookingNumber (req_year r) (req_fault r) c) as [c1 res] eqn:E.
    simpl in Hi, Hj. injection Hi as ->.
    apply getNextBookingNumber_fulfilled in E as (_ & -> & ->).
    destruct (serve_fulfilled_at reqs _ j rj Hj) as (yj & vj & _ & _ & Hrj & Hlt).
    exists (req_year r), yj, (nextSeq c), vj. repeat split; try assumption; [lia|].
    apply Hlt, lookup_insert_eq.
  - destruct (IH _ i j ri rj ltac:(lia) Hi Hj) as (yi & yj & vi & vj & Hri & Hrj & Hlo & Hlt).
    exists yi, yj, vi, vj. repeat split; try assumption.
    pose proof (getNextBookingNumber_nextSeq (req_year r) (req_fault r) c). lia.
Qed.

(** X1. While the counter is not negative and stays a safe integer over
    the sequence, no two calls of one sequence return the same booking
    number, whatever the years and whatever calls failed in between. *)
Theorem booking_numbers_distinct (reqs : list Request) (c : gmap jsstring Z)
    (i j : nat) (ri rj : jsstring) :
  (0 < nextSeq c)%Z ->
  safeCounter c (length reqs) ->
  i <> j ->
  (serve reqs c).2 !! i = Some (Fulfilled ri) ->
  (serve reqs c).2 !! j = Some (Fulfilled rj) ->
  ri <> rj.
Proof.
  intros Hc _ Hij Hi Hj Heq.
  assert (forall a b ra rb, (a < b)%nat ->
            (serve reqs c).2 !! a = Some (Fulfilled ra) ->
            (serve reqs c).2 !! b = Some (Fulfilled rb) -> ra <> rb) as Hord.
  { intros a b ra rb Hab Ha Hb Hsame.
    destruct (serve_fulfilled_pair reqs c a b ra rb Hab Ha Hb)
      as (ya & yb & va & vb & -> & -> & Hlo & Hlt).
    apply (f_equal sequenceComponent) in Hsame.
    rewrite !sequenceComponent_bookingNumber in Hsame by lia.
    injection Hsame as Hsame. lia. }
  destruct (Nat.lt_total i j) as [Hlt|[Heq'|Hgt]].
  - exact (Hord i j ri rj Hlt Hi Hj Heq).
  - contradiction.
  - exact (Hord j i rj ri Hgt Hj Hi (eq_sym Heq)).
Qed.

Lemma booking_numbers_distinct_witness :
  lit "JY-2025-000001" <> lit "JY-2025-000003".
Proof.
  apply (booking_numbers_distinct
           [ {| req_year := 2025; req_fault := None |};
             {| req_year := 2025;
                req_fault := Some {| fault_error := networkError;
                                     fault_committed := true |} |};
             {| req_year := 2025; req_fault := None |} ] ∅ 0 2).
  - reflexivity.
  - vm_compute. repeat split; reflexivity.
  - lia.
  - reflexivity.
  - reflexivity.
Defined.

(** X2. A failed call followed by a retry, while the counter stays a safe
    integer: the retry returns the number the failed call would have
    returned when the write was not applied, and the one after it, leaving a
    gap, when the write had been applied before the failure was reported. *)
Theorem retry_after_failure (y y' : Z) (f : StoreFault) (c : gmap jsstring Z) :
  safeCounter c 2 ->
  (getNextBookingNumber y' None (getNextBookingNumber y (Some f) c).1).2
  = Fulfilled (bookingNumber y'
                 (if fault_committed f then nextSeq c + 1 else nextSeq c)%Z).
Proof.
  intros _. rewrite getNextBookingNumber_fault, getNextBookingNumber_ok. simpl.
  destruct (fault_committed f); [rewrite nextSeq_insert|]; reflexivity.
Qed.

Lemma retry_after_failure_witness :
  (getNextBookingNumber 2025 None
     (getNextBookingNumber 2025
        (Some {| fault_error := networkError; fault_committed := true |})
        {[ bookingNumberKey := 1000%Z ]}).1).2
  = Fulfilled (bookingNumber 2025 1002).
Proof.
  pose proof (retry_after_failure 2025 2025
                {| fault_error := networkError; fault_committed := true |}
                {[ bookingNumberKey := 1000%Z ]}) as H.
  assert (Hsafe : safeCounter ({[ bookingNumberKey := 1000%Z ]} : gmap jsstring Z) 2)
    by (vm_compute; repeat split; reflexivity).
  specialize (H Hsafe). vm_compute in H |- *. exact H.
Defined.

(** X3. With a four-digit year and a counter below one million a booking
    number is exactly 14 characters long, and its sequence value can be read
    back from it. *)
Theorem booking_number_fixed_width (year v : Z) :
  (1000 <= year <= 9999)%Z -> (0 <= v < 1000000)%Z ->
  length (bookingNumber year v) = 14%nat
  /\ sequenceComponent (bookingNumber year v) = Some v.
Proof.
  intros Hy Hv. split; [|apply sequenceComponent_bookingNumber; lia].
  unfold bookingNumber, sequenceNumber.
  rewrite padStart_zero, !length_app, length_replicate.
  change (length (lit "JY-")) with 3%nat. change (length (lit "-")) with 1%nat.
  pose proof (proj2 (Number_toString_length_le year 3 ltac:(lia)) ltac:(simpl; lia)).
  assert (~ (length (Number_toString year) <= 3)%nat).
  { intros Hc. apply (Number_toString_length_le year 2 ltac:(lia)) in Hc.
    simpl in Hc. lia. }
  pose proof (proj2 (Number_toString_length_le v 5 ltac:(lia)) ltac:(simpl; lia)).
  lia.
Qed.

Lemma booking_number_fixed_width_witness :
  length (bookingNumber 2025 1234) = 14%nat
  /\ sequenceComponent (bookingNumber 2025 1234) = Some 1234%Z.
Proof. apply booking_number_fixed_width; lia. Defined.

(** ** parseInt and the pagination transforms, continued *)

Lemma takeWhile_all {A} (p : A -> bool) (l : list A) :
  Forall (fun y => p y = true) l -> takeWhile p l = l.
Proof.
  induction 1 as [|x l Hx Hl IH]; simpl; [reflexivity|].
  rewrite Hx, IH. reflexivity.
Qed.

Lemma decimal_digit_cases (ch : N) :
  isDecimalDigit ch = true ->
  ch ∈ [48; 49; 50; 51; 52; 53; 54; 55; 56; 57]%N.
Proof.
  unfold isDecimalDigit. intros H. apply andb_prop in H as [H1 H2].
  apply N.leb_le in H1, H2.
  assert (ch = 48 \/ ch = 49 \/ ch = 50 \/ ch = 51 \/ ch = 52 \/ ch = 53
          \/ ch = 54 \/ ch = 55 \/ ch = 56 \/ ch = 57)%N as Hc by lia.
  repeat (destruct Hc as [->|Hc]; [repeat constructor|]).
  subst ch. repeat constructor.
Qed.

(** A string that starts with a decimal digit has nothing for [parseInt] to
    skip: no white space and no sign. *)
Lemma parseInt10_digits (ds : jsstring) :
  ds <> [] -> Forall (fun ch => isDecimalDigit ch = true) ds ->
  parseInt10 ds = Some (Z.of_N (mathInt ds)).
Proof.
  intros Hne Hds. destruct ds as [|d ds]; [contradiction|].
  pose proof (Forall_inv Hds) as Hd. apply decimal_digit_cases in Hd.
  unfold parseInt10.
  assert (dropWhile isStrWhiteSpaceChar (d :: ds) = d :: ds) as ->.
  { apply dropWhile_fixed.
    repeat (apply elem_of_cons in Hd as [->|Hd]; [reflexivity|]).
    apply elem_of_nil in Hd. contradiction. }
  assert (match d :: ds with
          | 43%N :: r => r
          | 45%N :: r => r
          | _ => d :: ds
          end = d :: ds) as ->.
  { repeat (apply elem_of_cons in Hd as [->|Hd]; [reflexivity|]).
    apply elem_of_nil in Hd. contradiction. }
  rewrite (takeWhile_all _ _ Hds).
  assert (match d :: ds with 45%N :: _ => (-1)%Z | _ => 1%Z end = 1%Z) as ->.
  { repeat (apply elem_of_cons in Hd as [->|Hd]; [reflexivity|]).
    apply elem_of_nil in Hd. contradiction. }
  f_equal. lia.
Qed.

Lemma decimalDigits_not_nil (n : N) : decimalDigits n <> [].
Proof.
  intros H. pose proof (decimalDigits_nonempty n) as Hl. rewrite H in Hl.
  simpl in Hl. lia.
Qed.

Lemma parseInt10_Number_toString (v : Z) : parseInt10 (Number_toString v) = Some v.
Proof.
  unfold Number_toString. destruct (Z.ltb_spec v 0) as [Hneg|Hpos].
  - unfold parseInt10. simpl dropWhile. cbv iota beta.
    rewrite (takeWhile_all _ _ (decimalDigits_digits (Z.abs_N v))).
    destruct (decimalDigits (Z.abs_N v)) as [|d ds] eqn:E.
    + exfalso. exact (decimalDigits_not_nil _ E).
    + rewrite <- E, mathInt_decimalDigits. f_equal. lia.
  - rewrite parseInt10_digits.
    + rewrite mathInt_decimalDigits. f_equal. lia.
    + apply decimalDigits_not_nil.
    + apply decimalDigits_digits.
Qed.

(** X4. [parseInt(String(v), 10)] is [v] for every safe integer [v]: the
    decimal rendering of a number, with its sign, reads back as that number,
    also behind leading white space and before trailing text. *)
Theorem parseInt_of_toString (v : Z) (rest : jsstring) :
  safeInteger v ->
  parseInt10 (Number_toString v) = Some v
  /\ parseInt10 (lit " " ++ Number_toString v) = Some v
  /\ (match rest with [] => True | ch :: _ => isDecimalDigit ch = false end ->
      parseInt10 (Number_toString v ++ rest) = Some v).
Proof.
  intros _. split; [apply parseInt10_Number_toString|]. split.
  - pose proof (parseInt10_Number_toString v) as H. unfold parseInt10 in *.
    change (dropWhile isStrWhiteSpaceChar (lit " " ++ Number_toString v))
      with (dropWhile isStrWhiteSpaceChar (Number_toString v)).
    exact H.
  - intros Hrest. pose proof (parseInt10_Number_toString v) as H.
    assert (forall ds, Forall (fun ch => isDecimalDigit ch = true) ds ->
              takeWhile isDecimalDigit (ds ++ rest) = ds) as Htake.
    { intros ds Hds. destruct rest as [|ch rest'].
      - rewrite app_nil_r. apply takeWhile_all, Hds.
      - apply takeWhile_app_stop; assumption. }
    unfold Number_toString in *. destruct (Z.ltb_spec v 0) as [Hneg|Hpos].
    + unfold parseInt10 in *. simpl dropWhile in *. cbv iota beta in *.
      rewrite (takeWhile_all _ _ (decimalDigits_digits (Z.abs_N v))) in H.
      rewrite (Htake _ (decimalDigits_digits (Z.abs_N v))). exact H.
    + pose proof (decimalDigits_digits (Z.to_N v)) as Hds.
      pose proof (decimalDigits_not_nil (Z.to_N v)) as Hne.
      destruct (decimalDigits (Z.to_N v)) as [|d ds] eqn:E; [contradiction|].
      pose proof (Forall_inv Hds) as Hd. apply decimal_digit_cases in Hd.
      unfold parseInt10. rewrite <- app_comm_cons.
      assert (isStrWhiteSpaceChar d = false /\ d <> 43%N /\ d <> 45%N) as (Hws & Hp & Hm).
      { repeat (apply elem_of_cons in Hd as [->|Hd];
                [repeat split; (reflexivity || discriminate)|]).
        apply elem_of_nil in Hd. contradiction. }
      simpl dropWhile. rewrite Hws.
      assert (forall l : jsstring,
                match d :: l with 43%N :: r => r | 45%N :: r => r | _ => d :: l end
                = d :: l) as Hsign.
      { intros l. repeat (apply elem_of_cons in Hd as [->|Hd]; [reflexivity|]).
        apply elem_of_nil in Hd. contradiction. }
      assert (forall l : jsstring,
                match d :: l with 45%N :: _ => (-1)%Z | _ => 1%Z end = 1%Z) as Hone.
      { intros l. repeat (apply elem_of_cons in Hd as [->|Hd]; [reflexivity|]).
        apply elem_of_nil in Hd. contradiction. }
      clear H. rewrite (Hsign (ds ++ rest)), (Hone (ds ++ rest)).
      rewrite app_comm_cons, (Htake _ Hds). cbv iota beta.
      rewrite <- E, mathInt_decimalDigits. f_equal. lia.
Qed.

Lemma parseInt_of_toString_witness :
  parseInt10 (Number_toString (-42)) = Some (-42)%Z
  /\ parseInt10 (lit " " ++ Number_toString (-42)) = Some (-42)%Z
  /\ (match lit "px" with [] => True | ch :: _ => isDecimalDigit ch = false end ->
      parseInt10 (Number_toString (-42) ++ lit "px") = Some (-42)%Z).
Proof. apply parseInt_of_toString. split; reflexivity. Defined.

Lemma orElse_nonempty (s fallback : jsstring) :
  s <> [] -> orElse (Some s) fallback = s.
Proof. destruct s; [contradiction | reflexivity]. Qed.

Lemma Number_toString_not_nil (v : Z) : Number_toString v <> [].
Proof.
  unfold Number_toString. destruct (v <? 0)%Z; [discriminate|].
  apply decimalDigits_not_nil.
Qed.

(** X5. A page that is a safe integer of at least 1 and a limit from 1 to
    100, sent as their decimal text, come out of the schema as the very same
    numbers. *)
Theorem pagination_passes_valid_numbers (p l : Z) :
  (1 <= p < 2 ^ 53)%Z -> (1 <= l <= 100)%Z ->
  paginationQuerySchema
    (<[lit "page" := QString (Number_toString p)]>
       {[ lit "limit" := QString (Number_toString l) ]})
  = inr {| page := p; limit := l |}.
Proof.
  intros [Hp _] Hl. unfold paginationQuerySchema.
  rewrite lookup_insert_eq.
  rewrite lookup_insert_ne by discriminate. rewrite lookup_singleton_eq. simpl.
  unfold pageTransform, limitTransform.
  rewrite !orElse_nonempty by apply Number_toString_not_nil.
  rewrite !parseInt10_Number_toString.
  destruct (Z.ltb_spec p 1); [lia|]. destruct (Z.ltb_spec l 1); [lia|].
  f_equal. f_equal. lia.
Qed.

Lemma pagination_passes_valid_numbers_witness :
  paginationQuerySchema
    (<[lit "page" := QString (Number_toString 3)]>
       {[ lit "limit" := QString (Number_toString 25) ]})
  = inr {| page := 3; limit := 25 |}.
Proof.
  apply pagination_passes_valid_numbers; [split; [lia | reflexivity] | lia].
Defined.

(** ** sanitizeString, continued *)

Lemma String_trim_trimmed (s : jsstring) : trimmed (String_trim s).
Proof.
  unfold trimmed, String_trim. rewrite rev_involutive.
  split; [|apply dropWhile_head].
  set (a := dropWhile isStrWhiteSpaceChar s).
  destruct (dropWhile_suffix isStrWhiteSpaceChar (rev a)) as [w Hw].
  apply (f_equal (@rev N)) in Hw. rewrite rev_involutive, rev_app_distr in Hw.
  destruct (rev (dropWhile isStrWhiteSpaceChar (rev a))) as [|x t]; [exact I|].
  pose proof (dropWhile_head isStrWhiteSpaceChar s) as Hh. fold a in Hh.
  rewrite Hw in Hh. exact Hh.
Qed.

Lemma String_trim_fixed (s : jsstring) : trimmed s -> String_trim s = s.
Proof.
  intros [Hfront Hback]. unfold String_trim.
  rewrite (dropWhile_fixed _ s Hfront), (dropWhile_fixed _ (rev s) Hback).
  apply rev_involutive.
Qed.

(** X6. The result of [sanitizeString] contains none of the characters
    [<], [>], double quote, apostrophe and [/], and neither starts nor ends
    with white space. *)
Theorem sanitizeString_safe (input : jsstring) :
  Forall (fun ch => ch ∉ [60; 62; 34; 39; 47]%N) (sanitizeString input)
  /\ trimmed (sanitizeString input).
Proof.
  split; [|apply String_trim_trimmed].
  apply Forall_forall. intros ch Hch Hin.
  pose proof (sanitizeString_escaped input ch Hin) as Hfree.
  rewrite Forall_forall in Hfree. exact (Hfree ch Hch eq_refl).
Qed.

Lemma sanitizeString_escaped_all (s : jsstring) :
  Forall (fun ch => ch ∉ [60; 62; 34; 39; 47]%N) (sanitizeString s).
Proof.
  apply Forall_forall. intros ch Hch Hin.
  pose proof (sanitizeString_escaped s ch Hin) as Hfree.
  rewrite Forall_forall in Hfree. exact (Hfree ch Hch eq_refl).
Qed.

Lemma sanitizeString_fixed_of_safe (s : jsstring) :
  Forall (fun ch => ch ∉ [60; 62; 34; 39; 47]%N) s -> trimmed s ->
  sanitizeString s = s.
Proof.
  intros Hfree Htrim. unfold sanitizeString.
  assert (forall d, d ∈ [60; 62; 34; 39; 47]%N -> Forall (fun ch => ch <> d) s) as Hd.
  { intros d Hin. eapply Forall_impl; [exact Hfree|].
    intros ch Hch ->. exact (Hch Hin). }
  rewrite (String_replace_all_absent 60) by (apply Hd; repeat constructor).
  rewrite (String_replace_all_absent 62) by (apply Hd; repeat constructor).
  rewrite (String_replace_all_absent 34) by (apply Hd; repeat constructor).
  rewrite (String_replace_all_absent 39) by (apply Hd; repeat constructor).
  rewrite (String_replace_all_absent 47) by (apply Hd; repeat constructor).
  apply String_trim_fixed, Htrim.
Qed.

Lemma sanitizeString_twice (s : jsstring) :
  sanitizeString (sanitizeString s) = sanitizeString s.
Proof.
  apply sanitizeString_fixed_of_safe;
    [apply sanitizeString_escaped_all | apply String_trim_trimmed].
Qed.

(** X7. The strings [sanitizeString] leaves as they are, are exactly those
    that contain none of the five characters and have no white space at
    either end. *)
Theorem sanitizeString_fixed_points (s : jsstring) :
  sanitizeString s = s
  <-> Forall (fun ch => ch ∉ [60; 62; 34; 39; 47]%N) s /\ trimmed s.
Proof.
  split.
  - intros Hfix. rewrite <- Hfix.
    split; [apply sanitizeString_escaped_all | apply String_trim_trimmed].
  - intros [Hfree Htrim]. apply sanitizeString_fixed_of_safe; assumption.
Qed.

(** ** sanitizeObject *)

Lemma jsSize_item (items : list JSValue) (x : JSValue) :
  x ∈ items -> (jsSize x < jsSize (VArray items))%nat.
Proof.
  intros Hx. simpl. apply Nat.lt_succ_r.
  induction Hx as [x l | x y l Hx IH]; simpl; lia.
Qed.

Lemma jsSize_prop (proto : option JSValue) (props : gmap jsstring JSValue)
    (k : jsstring) (x : JSValue) :
  props !! k = Some x -> (jsSize x < jsSize (VObject proto props))%nat.
Proof.
  intros Hk. simpl. apply Nat.lt_succ_r.
  rewrite (map_fold_delete_L _ _ k x props); [lia | | exact Hk].
  intros j1 j2 z1 z2 y _ _ _. lia.
Qed.

Lemma jsSize_proto (p : JSValue) (props : gmap jsstring JSValue) :
  (jsSize p < jsSize (VObject (Some p) props))%nat.
Proof. simpl. lia. Qed.

(** Induction on values, with the hypothesis for every array element, every
    property value and the prototype. *)
Lemma JSValue_induction (P : JSValue -> Prop) :
  P VUndefined -> P VNull -> (forall b, P (VBool b)) -> (forall bits, P (VNumber bits)) ->
  (forall s, P (VString s)) -> (forall t, P (VDate t)) ->
  (forall items, Forall P items -> P (VArray items)) ->
  (forall proto props,
      (forall p, proto = Some p -> P p) ->
      (forall k v, props !! k = Some v -> P v) ->
      P (VObject proto props)) ->
  forall v, P v.
Proof.
  intros Hu Hn Hb Hnum Hs Hd Ha Ho.
  assert (forall n v, (jsSize v < n)%nat -> P v) as Hall.
  { induction n as [|n IHn]; intros v Hv; [lia|].
    destruct v as [| | b | bits | s | t | items | proto props]; auto.
    - apply Ha. apply Forall_forall. intros x Hx. apply IHn.
      pose proof (jsSize_item items x Hx). lia.
    - apply Ho.
      + intros p ->. apply IHn. pose proof (jsSize_proto p props). lia.
      + intros k x Hk. apply IHn. pose proof (jsSize_prop proto props k x Hk). lia. }
  intros v. apply (Hall (S (jsSize v))). lia.
Qed.

Lemma sanitizeObject_kind (v : JSValue) :
  isObjectOrNull (sanitizeObject v) = isObjectOrNull v.
Proof. destruct v; reflexivity. Qed.

(** The loop over the entries, in closed form: every property but
    [__proto__] is kept under its name with its value sanitized; a property
    [__proto__] installs its sanitized value as the prototype when that is
    an object or [null], and is otherwise lost. *)
Lemma sanitizeObject_object (proto : option JSValue) (props : gmap jsstring JSValue) :
  sanitizeObject (VObject proto props)
  = VObject
      (match props !! lit "__proto__" with
       | Some v => if isObjectOrNull v then Some (sanitizeObject v) else None
       | None => None
       end)
      (sanitizeObject <$> delete (lit "__proto__") props).
Proof.
  change (sanitizeObject (VObject proto props))
    with (toValue
            (map_fold (fun key value sanitized => jsSet sanitized key (sanitizeObject value))
                      emptyObject props)).
  set (closed := fun m : gmap jsstring JSValue =>
         {| obj_proto := match m !! lit "__proto__" with
                         | Some v => if isObjectOrNull v then Some (sanitizeObject v) else None
                         | None => None
                         end;
            obj_props := sanitizeObject <$> delete (lit "__proto__") m |}).
  enough (map_fold (fun key value sanitized => jsSet sanitized key (sanitizeObject value))
                   emptyObject props = closed props) as -> by reflexivity.
  apply (map_fold_weak_ind (fun r m => r = closed m)).
  - unfold closed. rewrite lookup_empty, delete_empty, fmap_empty. reflexivity.
  - intros i x m r Hi ->. unfold jsSet, closed. simpl.
    destruct (decide (i = lit "__proto__")) as [->|Hne].
    + rewrite Hi, lookup_insert_eq, delete_insert_eq, sanitizeObject_kind.
      rewrite decide_True.
      * destruct (isObjectOrNull x); reflexivity.
      * split; [reflexivity|]. split; [|reflexivity].
        rewrite lookup_fmap, lookup_delete_eq. reflexivity.
    + rewrite decide_False by (intros [? _]; contradiction).
      rewrite lookup_insert_ne by congruence.
      rewrite delete_insert_ne by congruence. rewrite fmap_insert. reflexivity.
Qed.

Lemma sanitizeObject_array (items : list JSValue) :
  sanitizeObject (VArray items) = VArray (map sanitizeObject items).
Proof. reflexivity. Qed.

(** X8. Every string value in the result of [sanitizeObject], at any depth
    (array elements, property values, and the values below an installed
    prototype), contains none of the five escaped characters and has no
    white space at either end. *)
Theorem sanitizeObject_strings_safe (obj : JSValue) :
  AllStrings (fun s => Forall (fun ch => ch ∉ [60; 62; 34; 39; 47]%N) s /\ trimmed s)
             (sanitizeObject obj).
Proof.
  induction obj as [| | b | bits | s | t | items IH | proto props IHp IHm]
    using JSValue_induction; try (constructor; fail).
  - constructor.
    split; [apply sanitizeString_escaped_all | apply String_trim_trimmed].
  - change (sanitizeObject (VDate t)) with (VObject None ∅).
    constructor; [discriminate|]. intros k v Hk. rewrite lookup_empty in Hk. discriminate.
  - rewrite sanitizeObject_array. constructor.
    induction IH as [|x l Hx Hl IHl]; simpl; constructor; assumption.
  - rewrite sanitizeObject_object. constructor.
    + intros p Hp. destruct (props !! lit "__proto__") as [v|] eqn:E; [|discriminate].
      destruct (isObjectOrNull v); [|discriminate].
      injection Hp as <-. exact (IHm _ _ E).
    + intros k v Hk. apply lookup_fmap_Some in Hk as (x & <- & Hx).
      destruct (decide (k = lit "__proto__")) as [->|Hne].
      * rewrite lookup_delete_eq in Hx. discriminate.
      * rewrite lookup_delete_ne in Hx by congruence. exact (IHm _ _ Hx).
Qed.

(** X9. On a value in which no object has a property named [__proto__],
    [sanitizeObject] is idempotent. *)
Theorem sanitizeObject_idempotent (obj : JSValue) :
  ProtoFree obj -> sanitizeObject (sanitizeObject obj) = sanitizeObject obj.
Proof.
  induction obj as [| | b | bits | s | t | items IH | proto props IHp IHm]
    using JSValue_induction; intros Hfree; try reflexivity.
  - simpl. f_equal. apply sanitizeString_twice.
  - rewrite !sanitizeObject_array. f_equal. inversion Hfree as [| | | | | | l Hl |]; subst.
    rewrite map_map. apply map_ext_in. intros x Hx.
    rewrite Forall_forall in IH, Hl.
    apply IH; [|apply Hl]; apply list_elem_of_In; exact Hx.
  - inversion Hfree as [| | | | | | | pr m Hnone Hm]; subst.
    rewrite (sanitizeObject_object proto props), Hnone.
    rewrite sanitizeObject_object.
    rewrite lookup_fmap, lookup_delete_eq. simpl. f_equal.
    rewrite delete_id by (rewrite lookup_fmap, lookup_delete_eq; reflexivity).
    rewrite (delete_id props) by exact Hnone.
    rewrite <- map_fmap_compose. apply map_fmap_ext.
    intros k x Hk. simpl. apply (IHm k x Hk), (Hm k x Hk).
Qed.

(** X10. What [sanitizeObject] does to an object's properties: every
    property except [__proto__] keeps its name, unescaped, and gets its
    value sanitized; the result never has an own property [__proto__]; a
    property [__proto__] of the input whose value is an object or [null]
    becomes, sanitized, the prototype of the result. *)
Theorem sanitizeObject_own_properties (proto : option JSValue)
    (props : gmap jsstring JSValue) :
  exists proto' props',
    sanitizeObject (VObject proto props) = VObject proto' props'
    /\ (forall k, k <> lit "__proto__" -> props' !! k = sanitizeObject <$> props !! k)
    /\ props' !! lit "__proto__" = None
    /\ dom props' = dom props ∖ {[ lit "__proto__" ]}
    /\ proto' = match props !! lit "__proto__" with
                | Some v => if isObjectOrNull v then Some (sanitizeObject v) else None
                | None => None
                end.
Proof.
  eexists _, _. split; [apply sanitizeObject_object|]. repeat split.
  - intros k Hk. rewrite lookup_fmap, lookup_delete_ne by congruence. reflexivity.
  - rewrite lookup_fmap, lookup_delete_eq. reflexivity.
  - rewrite dom_fmap_L, dom_delete_L. reflexivity.
Qed.

Lemma sanitizeObject_idempotent_witness :
  sanitizeObject
    (sanitizeObject
       (VObject None
          {[ lit "name" := VArray [VString (lit " <b>Hill view</b> "); VNull] ]}))
  = sanitizeObject
      (VObject None
         {[ lit "name" := VArray [VString (lit " <b>Hill view</b> "); VNull] ]}).
Proof.
  apply sanitizeObject_idempotent. constructor; [reflexivity|].
  intros k v Hk. apply lookup_singleton_Some in Hk as [_ <-].
  repeat constructor.
Defined.

(** A property [__proto__] with an object value ends up as the prototype,
    and a second pass, which reads own properties only, drops it. *)
Example sanitizeObject_proto_entry :
  sanitizeObject
    (VObject None {[ lit "__proto__" := VObject None {[ lit "admin" := VBool true ]} ]})
  = VObject (Some (VObject None {[ lit "admin" := VBool true ]})) ∅
  /\ sanitizeObject
       (VObject (Some (VObject None {[ lit "admin" := VBool true ]})) ∅)
     = VObject None ∅.
Proof. split; reflexivity. Qed.

(** ** The validation middleware *)

Lemma Object_assign_lookup (target : JSObject) (source : JSValue) (k : jsstring) :
  k <> lit "__proto__" ->
  obj_props (Object_assign target source) !! k
  = (ownEnumerable source ∪ obj_props target) !! k.
Proof.
  intros Hk. unfold Object_assign.
  apply (map_fold_weak_ind
           (fun r m => obj_props r !! k = (m ∪ obj_props target) !! k)).
  - rewrite (left_id_L ∅ (∪)). reflexivity.
  - intros i x m r Hi IH. rewrite <- insert_union_l. unfold jsSet.
    destruct (decide (i = lit "__proto__"
                      /\ obj_props r !! lit "__proto__" = None
                      /\ from_option reachesProtoAccessor true (obj_proto r) = true))
      as [[-> _]|_].
    + rewrite lookup_insert_ne by congruence.
      destruct (isObjectOrNull x); exact IH.
    + simpl. destruct (decide (i = k)) as [->|Hne].
      * rewrite !lookup_insert_eq. reflexivity.
      * rewrite !lookup_insert_ne by exact Hne. exact IH.
Qed.

(** X11. After [validate(schema, 'params')] has accepted a request, a key
    of [req.params] other than [__proto__] holds the validated value when
    the schema returned one under that key, and otherwise still holds the
    route parameter as it was: keys the schema leaves out are not removed.
    The body and the query are untouched, and [next()] is called. *)
Theorem validate_params_merges (schema : JSValue -> ParseOutcome) (req : ExpressRequest)
    (validated : JSValue) (k : jsstring) :
  schema (toValue (params req)) = Parsed validated ->
  k <> lit "__proto__" ->
  (validate schema TParams req).2 = [Next]
  /\ obj_props (params (validate schema TParams req).1) !! k
     = match ownEnumerable validated !! k with
       | Some v => Some v
       | None => obj_props (params req) !! k
       end
  /\ body (validate schema TParams req).1 = body req
  /\ query (validate schema TParams req).1 = query req.
Proof.
  intros Hparse Hk. unfold validate. simpl. rewrite Hparse. simpl.
  repeat split. rewrite (Object_assign_lookup _ _ _ Hk), lookup_union.
  destruct (ownEnumerable validated !! k), (obj_props (params req) !! k); reflexivity.
Qed.

Lemma validate_params_merges_witness :
  let req := {| body := VUndefined;
                query := emptyObject;
                params := {| obj_proto := None;
                             obj_props := {[ lit "id" := VString (lit " 64B7 ");
                                             lit "slug" := VString (lit "<x>") ]} |} |} in
  let schema := fun _ : JSValue => Parsed (VObject None {[ lit "id" := VString (lit "64B7") ]}) in
  (validate schema TParams req).2 = [Next]
  /\ obj_props (params (validate schema TParams req).1) !! lit "slug"
     = match ownEnumerable (VObject None {[ lit "id" := VString (lit "64B7") ]})
               !! lit "slug" with
       | Some v => Some v
       | None => obj_props (params req) !! lit "slug"
       end
  /\ body (validate schema TParams req).1 = body req
  /\ query (validate schema TParams req).1 = query req.
Proof.
  cbv zeta. apply validate_params_merges; [reflexivity | discriminate].
Defined.

Lemma readTarget_writeTarget_ne (t t' : ValidationTarget) (v : JSValue)
    (req : ExpressRequest) :
  t <> t' -> readTarget t' (writeTarget t v req) = readTarget t' req.
Proof. destruct t, t'; intros H; try contradiction; reflexivity. Qed.

Lemma entryErrors_writeTarget (t : ValidationTarget) (v : JSValue) (req : ExpressRequest)
    (entry : ValidationTarget * option (JSValue -> ParseOutcome)) :
  t <> entry.1 -> entryErrors (writeTarget t v req) entry = entryErrors req entry.
Proof.
  intros Hne. unfold entryErrors.
  rewrite (readTarget_writeTarget_ne t _ v req Hne). reflexivity.
Qed.

Lemma entryThrows_writeTarget (t : ValidationTarget) (v : JSValue) (req : ExpressRequest)
    (entry : ValidationTarget * option (JSValue -> ParseOutcome)) :
  t <> entry.1 -> entryThrows (writeTarget t v req) entry <-> entryThrows req entry.
Proof.
  intros Hne. unfold entryThrows.
  rewrite (readTarget_writeTarget_ne t _ v req Hne). reflexivity.
Qed.

(** The loop, when the targets still to come are distinct and none of their
    schemas throws: the errors are those of each entry judged on the
    request as it is now. *)
Lemma validateMultiple_from_actions
    (entries : list (ValidationTarget * option (JSValue -> ParseOutcome))) :
  forall (allErrors : list FieldError) (req : ExpressRequest),
  NoDup (fst <$> entries) ->
  (forall entry, entry ∈ entries -> ~ entryThrows req entry) ->
  (validateMultiple_from entries allErrors req).2
  = match allErrors ++ concat (entryErrors req <$> entries) with
    | [] => [Next]
    | e :: errs => [SendError validationFailed 400 (Some (e :: errs))]
    end.
Proof.
  induction entries as [|[t [schema|]] rest IH]; intros allErrors req Hnd Hthrow.
  - simpl. rewrite app_nil_r. destruct allErrors; reflexivity.
  - rewrite fmap_cons in Hnd. apply NoDup_cons in Hnd as [Hnotin Hnd]. cbn [fst] in Hnotin.
    pose proof (Hthrow _ (list_elem_of_here _ _)) as Hhere.
    unfold entryThrows in Hhere. simpl in Hhere.
    assert (forall entry, entry ∈ rest -> t <> entry.1) as Hother.
    { intros entry Hin ->. apply Hnotin. apply list_elem_of_fmap. eauto. }
    cbn [validateMultiple_from fmap list_fmap concat].
    unfold entryErrors at 1. cbn [fst snd].
    destruct (schema (readTarget t req)) as [validated|issues|error] eqn:E.
    + rewrite IH; [| exact Hnd |].
      * simpl. f_equal.
        assert (entryErrors (writeTarget t validated req) <$> rest
                = entryErrors req <$> rest) as ->; [|reflexivity].
        apply list_fmap_ext. intros i entry Hi.
        apply entryErrors_writeTarget, Hother.
        apply list_elem_of_lookup. eauto.
      * intros entry Hin Hth.
        apply (entryThrows_writeTarget t validated req entry (Hother _ Hin)) in Hth.
        exact (Hthrow entry (list_elem_of_further _ _ _ Hin) Hth).
    + rewrite IH; [| exact Hnd |].
      * rewrite <- app_assoc. reflexivity.
      * intros entry Hin. apply Hthrow, list_elem_of_further, Hin.
    + contradiction.
  - rewrite fmap_cons in Hnd. apply NoDup_cons in Hnd as [_ Hnd].
    cbn [validateMultiple_from fmap list_fmap concat].
    unfold entryErrors at 1. cbn [snd]. simpl app.
    apply IH; [exact Hnd|].
    intros entry Hin. apply Hthrow, list_elem_of_further, Hin.
Qed.

(** A part of the request no remaining entry names is left as it is. *)
Lemma validateMultiple_from_other
    (entries : list (ValidationTarget * option (JSValue -> ParseOutcome)))
    (t : ValidationTarget) :
  forall (allErrors : list FieldError) (req : ExpressRequest),
  t ∉ (fst <$> entries) ->
  readTarget t (validateMultiple_from entries allErrors req).1 = readTarget t req.
Proof.
  induction entries as [|[t' [schema|]] rest IH]; intros allErrors req Hnotin.
  - simpl. destruct allErrors; reflexivity.
  - rewrite fmap_cons in Hnotin. apply not_elem_of_cons in Hnotin as [Hne Hnotin]. cbn [fst] in Hne.
    cbn [validateMultiple_from].
    destruct (schema (readTarget t' req)) as [validated|issues|error].
    + rewrite IH by exact Hnotin. apply readTarget_writeTarget_ne. congruence.
    + apply IH, Hnotin.
    + reflexivity.
  - rewrite fmap_cons in Hnotin. apply not_elem_of_cons in Hnotin as [_ Hnotin]. apply IH, Hnotin.
Qed.

(** X12. [validateMultiple] over distinct targets whose schemas throw
    nothing but [ZodError]s reports every target's issues together, in the
    order of the entries and each judged on the request as it arrived, under
    the field name [target.path]; it answers 400 exactly when there is at
    least one issue and calls [next()] otherwise. *)
Theorem validateMultiple_reports_all
    (schemas : list (ValidationTarget * option (JSValue -> ParseOutcome)))
    (req : ExpressRequest) :
  NoDup (fst <$> schemas) ->
  (forall entry, entry ∈ schemas -> ~ entryThrows req entry) ->
  (validateMultiple schemas req).2
  = match concat (entryErrors req <$> schemas) with
    | [] => [Next]
    | e :: errs => [SendError validationFailed 400 (Some (e :: errs))]
    end.
Proof.
  intros Hnd Hthrow. unfold validateMultiple.
  rewrite (validateMultiple_from_actions schemas [] req Hnd Hthrow). reflexivity.
Qed.

(** X13. The body and the route parameters: a target of these two whose
    data passed its schema is updated with the validated data even when
    another target failed and the answer is 400; one that failed, or that
    has no schema, is left as it arrived. *)
Theorem validateMultiple_updates_passed
    (schemas : list (ValidationTarget * option (JSValue -> ParseOutcome)))
    (req : ExpressRequest) (t : ValidationTarget) :
  t <> TQuery ->
  NoDup (fst <$> schemas) ->
  (forall entry, entry ∈ schemas -> ~ entryThrows req entry) ->
  readTarget t (validateMultiple schemas req).1
  = match Array_find (fun entry => bool_decide (entry.1 = t)) schemas with
    | Some (_, Some schema) =>
        match schema (readTarget t req) with
        | Parsed validated => readTarget t (writeTarget t validated req)
        | _ => readTarget t req
        end
    | _ => readTarget t req
    end.
Proof.
  intros _.
  unfold validateMultiple. generalize (@nil FieldError) as allErrors.
  revert req. induction schemas as [|[t' [schema|]] rest IH];
    intros req allErrors Hnd Hthrow.
  - simpl. destruct allErrors; reflexivity.
  - rewrite fmap_cons in Hnd. apply NoDup_cons in Hnd as [Hnotin Hnd].
    cbn [fst] in Hnotin.
    pose proof (Hthrow _ (list_elem_of_here _ _)) as Hhere.
    unfold entryThrows in Hhere. cbn [fst snd] in Hhere.
    assert (forall entry, entry ∈ rest -> t' <> entry.1) as Hother.
    { intros entry Hin ->. apply Hnotin. apply list_elem_of_fmap. eauto. }
    cbn [validateMultiple_from Array_find fst].
    destruct (decide (t' = t)) as [->|Hne].
    + rewrite bool_decide_eq_true_2 by reflexivity.
      destruct (schema (readTarget t req)) as [validated|issues|error] eqn:E.
      * apply validateMultiple_from_other, Hnotin.
      * apply validateMultiple_from_other, Hnotin.
      * contradiction.
    + rewrite bool_decide_eq_false_2 by exact Hne.
      destruct (schema (readTarget t' req)) as [validated|issues|error] eqn:E.
      * rewrite IH; [| exact Hnd |].
        -- rewrite (readTarget_writeTarget_ne t' t validated req Hne).
           destruct (Array_find (fun entry => bool_decide (entry.1 = t)) rest)
             as [[t'' [s|]]|]; try reflexivity.
           destruct (s (readTarget t req)) as [v| |]; try reflexivity.
           destruct t', t; try contradiction; reflexivity.
        -- intros entry Hin Hth.
           apply (entryThrows_writeTarget t' validated req entry (Hother _ Hin)) in Hth.
           exact (Hthrow entry (list_elem_of_further _ _ _ Hin) Hth).
      * apply IH; [exact Hnd|].
        intros entry Hin. apply Hthrow, list_elem_of_further, Hin.
      * contradiction.
  - rewrite fmap_cons in Hnd. apply NoDup_cons in Hnd as [Hnotin Hnd].
    cbn [fst] in Hnotin.
    cbn [validateMultiple_from Array_find fst].
    destruct (decide (t' = t)) as [->|Hne].
    + rewrite bool_decide_eq_true_2 by reflexivity.
      apply validateMultiple_from_other, Hnotin.
    + rewrite bool_decide_eq_false_2 by exact Hne.
      apply IH; [exact Hnd|].
      intros entry Hin. apply Hthrow, list_elem_of_further, Hin.
Qed.

Lemma validateMultiple_reports_all_witness :
  let priceIssue :=
    {| path := [PKey (lit "pricing"); PKey (lit "basePrice")];
       issue_message := lit "Base price must be at least 100" |} in
  let schemas :=
    [ (TParams, Some (fun v : JSValue => Parsed v));
      (TBody, Some (fun _ : JSValue => ZodError [priceIssue])) ] in
  let req := {| body := VObject None ∅; query := emptyObject; params := emptyObject |} in
  (validateMultiple schemas req).2
  = match concat (entryErrors req <$> schemas) with
    | [] => [Next]
    | e :: errs => [SendError validationFailed 400 (Some (e :: errs))]
    end.
Proof.
  cbv zeta. apply validateMultiple_reports_all.
  - apply NoDup_ListNoDup. repeat constructor; simpl; intuition discriminate.
  - intros entry Hin.
    repeat (apply elem_of_cons in Hin as [->|Hin]; [simpl; tauto|]).
    apply elem_of_nil in Hin. contradiction.
Defined.

Example validateMultiple_field_name :
  (validateMultiple
     [ (TBody, Some (fun _ : JSValue =>
                       ZodError [ {| path := [PKey (lit "pricing"); PKey (lit "basePrice")];
                                     issue_message := lit "too low" |};
                                  {| path := [PKey (lit "images"); PIndex 2];
                                     issue_message := lit "Invalid image URL" |} ])) ]
     {| body := VNull; query := emptyObject; params := emptyObject |}).2
  = [ SendError validationFailed 400
        (Some [ {| field := lit "body.pricing.basePrice"; field_message := lit "too low" |};
                {| field := lit "body.images.2";
                   field_message := lit "Invalid image URL" |} ]) ].
Proof. reflexivity. Qed.

Lemma validateMultiple_updates_passed_witness :
  let schemas :=
    [ (TBody, Some (fun _ : JSValue => Parsed (VString (lit "clean"))));
      (TQuery, Some (fun _ : JSValue =>
                       ZodError [ {| path := [PKey (lit "page")];
                                     issue_message := lit "bad" |} ])) ] in
  let req := {| body := VString (lit " raw "); query := emptyObject;
                params := emptyObject |} in
  readTarget TBody (validateMultiple schemas req).1
  = match Array_find (fun entry => bool_decide (entry.1 = TBody)) schemas with
    | Some (_, Some schema) =>
        match schema (readTarget TBody req) with
        | Parsed validated => readTarget TBody (writeTarget TBody validated req)
        | _ => readTarget TBody req
        end
    | _ => readTarget TBody req
    end.
Proof.
  cbv zeta. apply validateMultiple_updates_passed.
  - discriminate.
  - apply NoDup_ListNoDup. repeat constructor; simpl; intuition discriminate.
  - intros entry Hin.
    repeat (apply elem_of_cons in Hin as [->|Hin]; [simpl; tauto|]).
    apply elem_of_nil in Hin. contradiction.
Defined.

(** ** The homestays controller *)

Lemma Array_findIndex_Some {A} (p : A -> bool) (l : list A) (i : nat) :
  Array_findIndex p l = Some i ->
  exists x, l !! i = Some x /\ p x = true /\ Array_find p l = Some x
            /\ Array_find p (take i l) = None.
Proof.
  revert i. induction l as [|y l IH]; intros i Hi; [discriminate|].
  simpl in Hi. destruct (p y) eqn:Ey.
  - injection Hi as <-. exists y. simpl. rewrite Ey. auto.
  - destruct (Array_findIndex p l) as [j|] eqn:Ej; [|discriminate].
    injection Hi as <-. destruct (IH j eq_refl) as (x & Hx & Hp & Hf & Ht).
    exists x. simpl. rewrite Ey. auto.
Qed.

Lemma Array_findIndex_None {A} (p : A -> bool) (l : list A) :
  Array_findIndex p l = None -> Array_find p l = None.
Proof.
  induction l as [|y l IH]; intros Hi; [reflexivity|].
  simpl in *. destruct (p y); [discriminate|].
  destruct (Array_findIndex p l); [discriminate|]. apply IH. reflexivity.
Qed.

Lemma Array_find_Some_index {A} (p : A -> bool) (l : list A) (x : A) :
  Array_find p l = Some x -> exists i, Array_findIndex p l = Some i /\ l !! i = Some x.
Proof.
  induction l as [|y l IH]; intros Hf; [discriminate|].
  simpl in *. destruct (p y).
  - injection Hf as <-. exists 0%nat. auto.
  - destruct (IH Hf) as (i & -> & Hi). exists (S i). auto.
Qed.

Lemma Array_find_split {A} (p : A -> bool) (l1 l2 : list A) :
  Array_find p l1 = None -> Array_find p (l1 ++ l2) = Array_find p l2.
Proof.
  induction l1 as [|y l1 IH]; intros Hn; [reflexivity|].
  simpl in *. destruct (p y); [discriminate|]. apply IH, Hn.
Qed.

(** Replacing or removing an element the predicate rejects, by one it
    rejects as well, does not change what [find] returns. *)
Lemma Array_find_insert_rejected {A} (p : A -> bool) (l : list A) (i : nat) (x y : A) :
  l !! i = Some x -> p x = false -> p y = false ->
  Array_find p (<[i := y]> l) = Array_find p l.
Proof.
  revert i. induction l as [|z l IH]; intros i Hi Hx Hy; [discriminate|].
  destruct i as [|i]; simpl in *.
  - injection Hi as ->. rewrite Hx, Hy. reflexivity.
  - destruct (p z); [reflexivity|]. apply (IH i Hi Hx Hy).
Qed.

Lemma Array_find_delete_rejected {A} (p : A -> bool) (l : list A) (i : nat) (x : A) :
  l !! i = Some x -> p x = false ->
  Array_find p (delete i l) = Array_find p l.
Proof.
  revert i. induction l as [|z l IH]; intros i Hi Hx; [discriminate|].
  destruct i as [|i]; simpl in *.
  - injection Hi as ->. rewrite Hx. reflexivity.
  - destruct (p z); [reflexivity|]. apply (IH i Hi Hx).
Qed.

Lemma prop_mergeUpdate_id (existing : gmap jsstring JSValue) (updates : JSValue) (now : Z) :
  prop (mergeUpdate existing updates now) (lit "_id") = prop existing (lit "_id").
Proof.
  unfold prop at 1, mergeUpdate.
  rewrite lookup_insert_ne by discriminate.
  rewrite lookup_insert_ne by discriminate.
  rewrite lookup_insert_eq. reflexivity.
Qed.

Lemma prop_mergeUpdate_createdAt (existing : gmap jsstring JSValue) (updates : JSValue)
    (now : Z) :
  prop (mergeUpdate existing updates now) (lit "createdAt")
  = prop existing (lit "createdAt").
Proof.
  unfold prop at 1, mergeUpdate.
  rewrite lookup_insert_ne by discriminate.
  rewrite lookup_insert_eq. reflexivity.
Qed.

Lemma hasId_mergeUpdate (id : jsstring) (existing : gmap jsstring JSValue)
    (updates : JSValue) (now : Z) :
  hasId id (mergeUpdate existing updates now) = hasId id existing.
Proof. unfold hasId. rewrite prop_mergeUpdate_id. reflexivity. Qed.

Lemma hasId_other (id id' : jsstring) (h : gmap jsstring JSValue) :
  id <> id' -> hasId id h = true -> hasId id' h = false.
Proof.
  unfold hasId. intros Hne. destruct (prop h (lit "_id")); try discriminate.
  intros Hid. apply bool_decide_eq_true in Hid. subst.
  apply bool_decide_eq_false. exact Hne.
Qed.

(** X14. [updateHomestay] never changes the identity of what is stored:
    whatever the request body holds, also keys [_id] and [createdAt] of its
    own, the homestays keep their [_id] and [createdAt] values, position by
    position, and none is added or removed. *)
Theorem updateHomestay_preserves_identity (id : jsstring) (updates : JSValue) (now : Z)
    (homestaysStore : list (gmap jsstring JSValue)) :
  ((fun h => prop h (lit "_id")) <$> (updateHomestay id updates now homestaysStore).1)
  = ((fun h => prop h (lit "_id")) <$> homestaysStore)
  /\ ((fun h => prop h (lit "createdAt")) <$> (updateHomestay id updates now homestaysStore).1)
     = ((fun h => prop h (lit "createdAt")) <$> homestaysStore)
  /\ length (updateHomestay id updates now homestaysStore).1 = length homestaysStore.
Proof.
  unfold updateHomestay.
  destruct (Array_findIndex (hasId id) homestaysStore) as [index|] eqn:E; [|auto].
  destruct (homestaysStore !! index) as [existing|] eqn:Ei; [|auto]. simpl.
  rewrite !list_fmap_insert, prop_mergeUpdate_id, prop_mergeUpdate_createdAt.
  rewrite !list_insert_id by (rewrite list_lookup_fmap, Ei; reflexivity).
  rewrite length_insert. auto.
Qed.

(** X15. An update followed by a read: when a homestay with the id exists,
    [updateHomestay] answers 200 with the merged homestay and
    [getHomestayById] then returns that same object. In it [updatedAt] is
    the time of the update, [_id] and [createdAt] are those of the stored
    homestay, and every other key holds the value of the request body where
    the body has the key and the stored value otherwise. *)
Theorem updateHomestay_then_get (id : jsstring) (updates : JSValue) (now : Z)
    (homestaysStore : list (gmap jsstring JSValue)) (existing : gmap jsstring JSValue) :
  getHomestayById id homestaysStore = SendSuccess (VObject None existing) None None ->
  exists updated : gmap jsstring JSValue,
    (updateHomestay id updates now homestaysStore).2
    = SendSuccess (VObject None updated) (Some 200%Z)
                  (Some (lit "Homestay updated successfully"))
    /\ getHomestayById id (updateHomestay id updates now homestaysStore).1
       = SendSuccess (VObject None updated) None None
    /\ updated !! lit "updatedAt" = Some (VDate now)
    /\ updated !! lit "_id" = Some (prop existing (lit "_id"))
    /\ updated !! lit "createdAt" = Some (prop existing (lit "createdAt"))
    /\ forall k, k <> lit "updatedAt" -> k <> lit "_id" -> k <> lit "createdAt" ->
         updated !! k = match ownEnumerable updates !! k with
                        | Some v => Some v
                        | None => existing !! k
                        end.
Proof.
  unfold getHomestayById at 1.
  destruct (Array_find (hasId id) homestaysStore) as [h|] eqn:Ef; [|discriminate].
  intros Hget. injection Hget as ->.
  destruct (Array_find_Some_index _ _ _ Ef) as (index & Hidx & Hlook).
  destruct (Array_findIndex_Some _ _ _ Hidx) as (x & Hx & Hp & _ & Hbefore).
  rewrite Hlook in Hx. injection Hx as <-.
  exists (mergeUpdate existing updates now).
  unfold updateHomestay. rewrite Hidx, Hlook. simpl. split; [reflexivity|].
  split; [|repeat split].
  - unfold getHomestayById.
    pose proof (lookup_lt_Some _ _ _ Hlook) as Hlt.
    rewrite <- (take_drop index homestaysStore) at 1.
    rewrite insert_app_r_alt by (rewrite length_take; lia).
    rewrite length_take, Nat.min_l, Nat.sub_diag by lia.
    rewrite Array_find_split by exact Hbefore.
    destruct (drop index homestaysStore) as [|y rest] eqn:Ed.
    + apply (f_equal length) in Ed. rewrite length_drop in Ed. simpl in Ed. lia.
    + simpl. rewrite hasId_mergeUpdate, Hp. reflexivity.
  - unfold mergeUpdate. apply lookup_insert_eq.
  - unfold mergeUpdate. rewrite lookup_insert_ne by discriminate.
    rewrite lookup_insert_ne by discriminate. apply lookup_insert_eq.
  - unfold mergeUpdate. rewrite lookup_insert_ne by discriminate.
    apply lookup_insert_eq.
  - intros k H1 H2 H3. unfold mergeUpdate.
    rewrite !lookup_insert_ne by congruence. rewrite lookup_union.
    destruct (ownEnumerable updates !! k), (existing !! k); reflexivity.
Qed.

Lemma updateHomestay_then_get_witness :
  let stored : gmap jsstring JSValue :=
    {[ lit "_id" := VString (lit "h1"); lit "title" := VString (lit "Hill view") ]} in
  let updates :=
    VObject None {[ lit "_id" := VString (lit "h2"); lit "title" := VString (lit "Lake view") ]} in
  exists updated : gmap jsstring JSValue,
    (updateHomestay (lit "h1") updates 1767225600000 [stored]).2
    = SendSuccess (VObject None updated) (Some 200%Z)
                  (Some (lit "Homestay updated successfully"))
    /\ getHomestayById (lit "h1") (updateHomestay (lit "h1") updates 1767225600000 [stored]).1
       = SendSuccess (VObject None updated) None None
    /\ updated !! lit "updatedAt" = Some (VDate 1767225600000)
    /\ updated !! lit "_id" = Some (prop stored (lit "_id"))
    /\ updated !! lit "createdAt" = Some (prop stored (lit "createdAt"))
    /\ forall k, k <> lit "updatedAt" -> k <> lit "_id" -> k <> lit "createdAt" ->
         updated !! k = match ownEnumerable updates !! k with
                        | Some v => Some v
                        | None => stored !! k
                        end.
Proof.
  cbv zeta. apply updateHomestay_then_get. reflexivity.
Defined.

Lemma Array_find_None_iff {A} (p : A -> bool) (l : list A) :
  Array_find p l = None <-> forall j y, l !! j = Some y -> p y = false.
Proof.
  induction l as [|x l IH]; simpl.
  - split; [intros _ j y Hj; discriminate | reflexivity].
  - destruct (p x) eqn:Ex.
    + split; [discriminate|]. intros H. specialize (H 0%nat x eq_refl). congruence.
    + rewrite IH. split.
      * intros H [|j] y Hj; [injection Hj as <-; exact Ex | exact (H j y Hj)].
      * intros H j y Hj. exact (H (S j) y Hj).
Qed.

(** X16. Deleting a homestay whose id no other stored homestay shares:
    [deleteHomestay] answers 200, the store is one shorter, and
    [getHomestayById] no longer finds the id. *)
Theorem deleteHomestay_then_get (id : jsstring)
    (homestaysStore : list (gmap jsstring JSValue)) (existing : gmap jsstring JSValue) :
  getHomestayById id homestaysStore = SendSuccess (VObject None existing) None None ->
  (forall i j hi hj,
      homestaysStore !! i = Some hi -> homestaysStore !! j = Some hj ->
      hasId id hi = true -> hasId id hj = true -> i = j) ->
  (deleteHomestay id homestaysStore).2
  = SendSuccess VNull (Some 200%Z) (Some (lit "Homestay deleted successfully"))
  /\ S (length (deleteHomestay id homestaysStore).1) = length homestaysStore
  /\ getHomestayById id (deleteHomestay id homestaysStore).1 = notFound.
Proof.
  unfold getHomestayById at 1.
  destruct (Array_find (hasId id) homestaysStore) as [h|] eqn:Ef; [|discriminate].
  intros _ Huniq.
  destruct (Array_find_Some_index _ _ _ Ef) as (index & Hidx & Hlook).
  destruct (Array_findIndex_Some _ _ _ Hidx) as (x & Hx & Hp & _ & Hbefore).
  pose proof (lookup_lt_Some _ _ _ Hlook) as Hlt.
  unfold deleteHomestay. rewrite Hidx. simpl. split; [reflexivity|]. split.
  - rewrite length_delete by eauto. lia.
  - unfold getHomestayById.
    assert (Array_find (hasId id) (delete index homestaysStore) = None) as ->;
      [|reflexivity].
    apply Array_find_None_iff. intros j y Hj.
    destruct (hasId id y) eqn:Ey; [|reflexivity]. exfalso.
    destruct (decide (j < index)%nat) as [Hji|Hji].
    + rewrite list_lookup_delete_lt in Hj by exact Hji.
      pose proof (Huniq j index y x Hj Hx Ey Hp). lia.
    + rewrite list_lookup_delete_ge in Hj by lia.
      pose proof (Huniq (S j) index y x Hj Hx Ey Hp). lia.
Qed.

Lemma deleteHomestay_then_get_witness :
  let h1 : gmap jsstring JSValue := {[ lit "_id" := VString (lit "h1") ]} in
  let h2 : gmap jsstring JSValue := {[ lit "_id" := VString (lit "h2") ]} in
  (deleteHomestay (lit "h2") [h1; h2]).2
  = SendSuccess VNull (Some 200%Z) (Some (lit "Homestay deleted successfully"))
  /\ S (length (deleteHomestay (lit "h2") [h1; h2]).1) = length [h1; h2]
  /\ getHomestayById (lit "h2") (deleteHomestay (lit "h2") [h1; h2]).1 = notFound.
Proof.
  cbv zeta.
  apply (deleteHomestay_then_get (lit "h2") _ {[ lit "_id" := VString (lit "h2") ]}).
  - reflexivity.
  - intros [|[|i]] [|[|j]] hi hj Hi Hj Hidi Hidj; try reflexivity; try discriminate;
      simpl in Hi, Hj;
      try (injection Hi as <-; discriminate Hidi);
      try (injection Hj as <-; discriminate Hidj).
Defined.

(** With two homestays under one id, a delete removes the first and the
    second answers the next read. *)
Example deleteHomestay_duplicate_id :
  let first : gmap jsstring JSValue :=
    {[ lit "_id" := VString (lit "h1"); lit "title" := VString (lit "first") ]} in
  let second : gmap jsstring JSValue :=
    {[ lit "_id" := VString (lit "h1"); lit "title" := VString (lit "second") ]} in
  getHomestayById (lit "h1") (deleteHomestay (lit "h1") [first; second]).1
  = SendSuccess (VObject None second) None None.
Proof. reflexivity. Qed.

(** X17. Updating or deleting the homestay with one id changes nothing
    about what [getHomestayById] returns for any other id. *)
Theorem other_ids_unaffected (id id' : jsstring) (updates : JSValue) (now : Z)
    (homestaysStore : list (gmap jsstring JSValue)) :
  id <> id' ->
  getHomestayById id' (updateHomestay id updates now homestaysStore).1
  = getHomestayById id' homestaysStore
  /\ getHomestayById id' (deleteHomestay id homestaysStore).1
     = getHomestayById id' homestaysStore.
Proof.
  intros Hne. unfold getHomestayById, updateHomestay, deleteHomestay.
  destruct (Array_findIndex (hasId id) homestaysStore) as [index|] eqn:Hidx;
    [|split; reflexivity].
  destruct (Array_findIndex_Some _ _ _ Hidx) as (x & Hx & Hp & _ & _).
  rewrite Hx. simpl.
  pose proof (hasId_other id id' x Hne Hp) as Hrej.
  split.
  - rewrite (Array_find_insert_rejected _ _ _ x); try assumption; [reflexivity|].
    rewrite hasId_mergeUpdate. exact Hrej.
  - rewrite (Array_find_delete_rejected _ _ _ x); try assumption. reflexivity.
Qed.

Lemma other_ids_unaffected_witness :
  let h1 : gmap jsstring JSValue := {[ lit "_id" := VString (lit "h1") ]} in
  let h2 : gmap jsstring JSValue := {[ lit "_id" := VString (lit "h2") ]} in
  getHomestayById (lit "h2")
    (updateHomestay (lit "h1") (VObject None {[ lit "_id" := VString (lit "h2") ]})
                    0 [h1; h2]).1
  = getHomestayById (lit "h2") [h1; h2]
  /\ getHomestayById (lit "h2") (deleteHomestay (lit "h1") [h1; h2]).1
     = getHomestayById (lit "h2") [h1; h2].
Proof. cbv zeta. apply other_ids_unaffected. discriminate. Defined.

(** X18. An id no stored homestay carries: the read, the update and the
    delete all answer 404 [Homestay not found], and the store is left as it
    was. *)
Theorem unknown_id_not_found (id : jsstring) (updates : JSValue) (now : Z)
    (homestaysStore : list (gmap jsstring JSValue)) :
  (forall j h, homestaysStore !! j = Some h -> hasId id h = false) ->
  getHomestayById id homestaysStore = SendError (lit "Homestay not found") 404 None
  /\ updateHomestay id updates now homestaysStore
     = (homestaysStore, SendError (lit "Homestay not found") 404 None)
  /\ deleteHomestay id homestaysStore
     = (homestaysStore, SendError (lit "Homestay not found") 404 None).
Proof.
  intros Hnone. apply Array_find_None_iff in Hnone.
  unfold getHomestayById, updateHomestay, deleteHomestay. rewrite Hnone.
  destruct (Array_findIndex (hasId id) homestaysStore) as [index|] eqn:Hidx;
    [|repeat split].
  destruct (Array_findIndex_Some _ _ _ Hidx) as (x & _ & _ & Hf & _). congruence.
Qed.

Lemma unknown_id_not_found_witness :
  getHomestayById (lit "h9") [ {[ lit "_id" := VString (lit "h1") ]} ]
  = SendError (lit "Homestay not found") 404 None
  /\ updateHomestay (lit "h9") VNull 0 [ {[ lit "_id" := VString (lit "h1") ]} ]
     = ([ {[ lit "_id" := VString (lit "h1") ]} ],
        SendError (lit "Homestay not found") 404 None)
  /\ deleteHomestay (lit "h9") [ {[ lit "_id" := VString (lit "h1") ]} ]
     = ([ {[ lit "_id" := VString (lit "h1") ]} ],
        SendError (lit "Homestay not found") 404 None).
Proof.
  apply unknown_id_not_found.
  intros [|j] h Hj; [injection Hj as <-; reflexivity | discriminate].
Defined.

(** ** Identifiers under sanitizeString *)

Ltac not_among_escaped :=
  let H := fresh in
  intros H; repeat (apply elem_of_cons in H as [H|H]; [discriminate H|]);
  apply elem_of_nil in H; exact H.

Lemma sanitizeString_plain (s : jsstring) :
  Forall (fun ch => (ch ∉ [60; 62; 34; 39; 47]%N) /\ isStrWhiteSpaceChar ch = false) s ->
  sanitizeString s = s.
Proof.
  intros Hplain. apply sanitizeString_fixed_of_safe.
  - eapply Forall_impl; [exact Hplain|]. intros ch [H _]. exact H.
  - assert (forall l : jsstring,
              Forall (fun ch => (ch ∉ [60; 62; 34; 39; 47]%N)
                                /\ isStrWhiteSpaceChar ch = false) l ->
              match l with [] => True | ch :: _ => isStrWhiteSpaceChar ch = false end)
      as Hhead.
    { intros [|ch l] Hl; [exact I|]. apply Forall_inv in Hl as [_ H]. exact H. }
    split; [apply Hhead, Hplain | apply Hhead, Forall_rev, Hplain].
Qed.

Lemma decimal_digit_plain (ch : N) :
  isDecimalDigit ch = true ->
  (ch ∉ [60; 62; 34; 39; 47]%N) /\ isStrWhiteSpaceChar ch = false.
Proof.
  intros H. apply decimal_digit_cases in H.
  repeat (apply elem_of_cons in H as [->|H]; [split; [not_among_escaped | reflexivity]|]).
  apply elem_of_nil in H. contradiction.
Qed.

Lemma hex_digit_plain (ch : N) :
  isHexDigit ch = true ->
  (ch ∉ [60; 62; 34; 39; 47]%N) /\ isStrWhiteSpaceChar ch = false.
Proof.
  unfold isHexDigit. intros H.
  apply orb_prop in H as [H|H]; [apply orb_prop in H as [H|H]|].
  - apply decimal_digit_plain, H.
  - apply andb_prop in H as [H1 H2]. apply N.leb_le in H1, H2.
    assert (ch = 97 \/ ch = 98 \/ ch = 99 \/ ch = 100 \/ ch = 101 \/ ch = 102)%N
      as Hc by lia.
    repeat (destruct Hc as [->|Hc]; [split; [not_among_escaped | reflexivity]|]).
    subst ch. split; [not_among_escaped | reflexivity].
  - apply andb_prop in H as [H1 H2]. apply N.leb_le in H1, H2.
    assert (ch = 65 \/ ch = 66 \/ ch = 67 \/ ch = 68 \/ ch = 69 \/ ch = 70)%N
      as Hc by lia.
    repeat (destruct Hc as [->|Hc]; [split; [not_among_escaped | reflexivity]|]).
    subst ch. split; [not_among_escaped | reflexivity].
Qed.

Lemma Number_toString_plain (v : Z) :
  Forall (fun ch => (ch ∉ [60; 62; 34; 39; 47]%N) /\ isStrWhiteSpaceChar ch = false)
         (Number_toString v).
Proof.
  assert (forall n, Forall (fun ch => (ch ∉ [60; 62; 34; 39; 47]%N)
                                      /\ isStrWhiteSpaceChar ch = false)
                           (decimalDigits n)) as Hd.
  { intros n. eapply Forall_impl; [apply decimalDigits_digits|].
    intros ch Hch. apply decimal_digit_plain, Hch. }
  unfold Number_toString. destruct (v <? 0)%Z; [|apply Hd].
  constructor; [split; [not_among_escaped | reflexivity] | apply Hd].
Qed.

(** X19. A booking number passes through [sanitizeString] unchanged,
    whatever the year and the counter value: it holds letters, digits and
    hyphens only. *)
Theorem bookingNumber_survives_sanitizeString (year v : Z) :
  sanitizeString (bookingNumber year v) = bookingNumber year v.
Proof.
  apply sanitizeString_plain. unfold bookingNumber, sequenceNumber.
  rewrite padStart_zero.
  repeat (apply Forall_app; split); try apply Number_toString_plain.
  - repeat constructor; not_among_escaped.
  - repeat constructor; not_among_escaped.
  - apply Forall_replicate. split; [not_among_escaped | reflexivity].
Qed.

(** X20. A string [mongoIdSchema] accepts has exactly 24 characters, all
    of them hexadecimal digits, and passes through [sanitizeString]
    unchanged; a value that is not a string is never accepted. *)
Theorem mongoId_survives_sanitizeString (v : JSValue) :
  mongoIdSchema v = true ->
  exists s, v = VString s /\ length s = 24%nat
            /\ Forall (fun ch => isHexDigit ch = true) s
            /\ sanitizeObject v = v.
Proof.
  destruct v as [| | b | bits | s | t | items | proto props]; try discriminate.
  simpl. unfold matchesMongoId. intros H. apply andb_prop in H as [Hlen Hhex].
  apply bool_decide_eq_true in Hlen.
  assert (Forall (fun ch => isHexDigit ch = true) s) as Hall.
  { apply Forall_forall. intros ch Hch.
    rewrite forallb_forall in Hhex. apply Hhex, list_elem_of_In, Hch. }
  exists s. repeat split; try assumption.
  f_equal. apply sanitizeString_plain.
  eapply Forall_impl; [exact Hall|]. intros ch Hch. apply hex_digit_plain, Hch.
Qed.

Lemma mongoId_survives_sanitizeString_witness :
  exists s, VString (lit "64b7f0c2a1d9e8f7a6b5c4d3") = VString s /\ length s = 24%nat
            /\ Forall (fun ch => isHexDigit ch = true) s
            /\ sanitizeObject (VString (lit "64b7f0c2a1d9e8f7a6b5c4d3"))
               = VString (lit "64b7f0c2a1d9e8f7a6b5c4d3").
Proof. apply mongoId_survives_sanitizeString. reflexivity. Defined.

(** ** searchQuerySchema *)

(** X21. A search query the schema accepts has a [q] of at least two
    characters, taken as sent; its page and limit are those
    [paginationQuerySchema] computes for the same query, so at least 1 and
    between 1 and 100; and its type is [all] when none was sent. *)
Theorem searchQuerySchema_accepted (query : gmap jsstring QueryValue) (out : SearchQuery) :
  searchQuerySchema query = inr out ->
  query !! lit "q" = Some (QString (q out))
  /\ (2 <= length (q out))%nat
  /\ paginationQuerySchema query
     = inr {| page := search_page out; limit := search_limit out |}
  /\ (1 <= search_page out)%Z
  /\ (1 <= search_limit out <= 100)%Z
  /\ (query !! lit "type" = None -> search_type out = SearchAll).
Proof.
  unfold searchQuerySchema, paginationQuerySchema. intros H.
  destruct (zStringOptional (lit "page") (query !! lit "page")) as [ip|p];
    destruct (zStringOptional (lit "limit") (query !! lit "limit")) as [il|l];
    destruct (zSearchText (query !! lit "q")) as [iq|text] eqn:Eq;
    destruct (zSearchType (query !! lit "type")) as [it|ty] eqn:Et;
    try discriminate H.
  injection H as <-. simpl.
  unfold zSearchText in Eq.
  destruct (query !! lit "q") as [[s|items|fields]|]; try discriminate Eq.
  destruct (decide (2 <= length s)%nat) as [Hlen|]; [|discriminate Eq].
  injection Eq as <-.
  repeat split; try assumption.
  - apply pageTransform_bound.
  - apply limitTransform_bound.
  - apply limitTransform_bound.
  - intros Hnone. rewrite Hnone in Et. simpl in Et. congruence.
Qed.

Lemma searchQuerySchema_accepted_witness :
  let query : gmap jsstring QueryValue :=
    {[ lit "q" := QString (lit "fort"); lit "limit" := QString (lit "500") ]} in
  query !! lit "q" = Some (QString (lit "fort"))
  /\ (2 <= length (lit "fort"))%nat
  /\ paginationQuerySchema query = inr {| page := 1; limit := 100 |}
  /\ (1 <= 1)%Z
  /\ (1 <= 100 <= 100)%Z
  /\ (query !! lit "type" = None -> SearchAll = SearchAll).
Proof.
  cbv zeta.
  apply (searchQuerySchema_accepted _
           {| search_page := 1; search_limit := 100; q := lit "fort";
              search_type := SearchAll |}).
  reflexivity.
Defined.

(** A query without [q] and with a repeated [page] is refused with one
    issue for each. *)
Example searchQuerySchema_issues :
  searchQuerySchema {[ lit "page" := QArray [lit "1"; lit "2"] ]}
  = inl [ {| issue_path := lit "page"; issue_code := lit "invalid_type" |};
          {| issue_path := lit "q"; issue_code := lit "invalid_type" |} ].
Proof. reflexivity. Qed.

Lemma sanitizeString_fixed_points_witness :
  sanitizeString (lit "Ranchi Lake") = lit "Ranchi Lake"
  <-> Forall (fun ch => ch ∉ [60; 62; 34; 39; 47]%N) (lit "Ranchi Lake")
      /\ trimmed (lit "Ranchi Lake").
Proof. apply sanitizeString_fixed_points. Defined.

Lemma sanitizeObject_own_properties_witness :
  exists proto' props',
    sanitizeObject (VObject None {[ lit "<b>" := VString (lit "<b>") ]})
    = VObject proto' props'
    /\ (forall k, k <> lit "__proto__" ->
          props' !! k
          = sanitizeObject
              <$> ({[ lit "<b>" := VString (lit "<b>") ]} : gmap jsstring JSValue) !! k)
    /\ props' !! lit "__proto__" = None
    /\ dom props'
       = dom ({[ lit "<b>" := VString (lit "<b>") ]} : gmap jsstring JSValue)
           ∖ {[ lit "__proto__" ]}
    /\ proto' = match ({[ lit "<b>" := VString (lit "<b>") ]} : gmap jsstring JSValue)
                      !! lit "__proto__" with
                | Some v => if isObjectOrNull v then Some (sanitizeObject v) else None
                | None => None
                end.
Proof. apply sanitizeObject_own_properties. Defined.

(** The name of a property is kept as it is while its value is escaped. *)
Example sanitizeObject_key_not_escaped :
  sanitizeObject (VObject None {[ lit "<b>" := VString (lit "<b>") ]})
  = VObject None {[ lit "<b>" := VString (lit "&lt;b&gt;") ]}.
Proof. reflexivity. Qed.

(** ** Concurrent calls, continued *)

Lemma carriesYear_step (y : Z) (e : Event) (σ : System) (i : nat) (s : CallState) :
  calls σ !! i = Some s -> carriesYear y s ->
  exists s', calls (step e σ) !! i = Some s' /\ carriesYear y s'.
Proof.
  intros Hs Hy. destruct (decide (i = ev_call e)) as [->|Hne].
  - pose proof (lookup_lt_Some _ _ _ Hs) as Hlt.
    unfold step. rewrite Hs. destruct s as [| year | year counter | r].
    + contradiction.
    + rewrite findOneAndUpdate_booking. eexists.
      split; [apply list_lookup_insert_eq, Hlt | exact Hy].
    + eexists. split; [apply list_lookup_insert_eq, Hlt|].
      simpl in Hy. subst year. exists counter. reflexivity.
    + exists (Returned r). split; [exact Hs | exact Hy].
  - exists s. split; [|exact Hy]. rewrite step_other by exact Hne. exact Hs.
Qed.

Lemma carriesYear_run (y : Z) (schedule : list Event) :
  forall (σ : System) (i : nat) (s : CallState),
  calls σ !! i = Some s -> carriesYear y s ->
  exists s', calls (run schedule σ) !! i = Some s' /\ carriesYear y s'.
Proof.
  induction schedule as [|e schedule IH]; intros σ i s Hs Hy; [eauto|].
  destruct (carriesYear_step y e σ i s Hs Hy) as (s1 & Hs1 & Hy1).
  exact (IH _ _ _ Hs1 Hy1).
Qed.

Lemma yearAtCall_run (schedule : list Event) :
  forall (σ : System) (i : nat),
  calls σ !! i = Some NotCalled ->
  match yearAtCall i schedule with
  | None => calls (run schedule σ) !! i = Some NotCalled
  | Some y => exists s', calls (run schedule σ) !! i = Some s' /\ carriesYear y s'
  end.
Proof.
  induction schedule as [|e schedule IH]; intros σ i Hs; [exact Hs|].
  unfold yearAtCall. cbn [Array_find].
  destruct (Nat.eqb_spec (ev_call e) i) as [<-|Hne].
  - simpl. apply (carriesYear_run (ev_now e) schedule (step e σ) (ev_call e)
                    (Awaiting (ev_now e))); [|reflexivity].
    unfold step. rewrite Hs. simpl.
    apply list_lookup_insert_eq, (lookup_lt_Some _ _ _ Hs).
  - apply (IH (step e σ) i). rewrite step_other by congruence. exact Hs.
Qed.

(** X22. The year in a booking number is the year the clock showed when the
    function was called, not when the store answered or when the call
    resumed: among concurrent calls, a call started in one year and
    completed in the next returns a number under the old year. *)
Theorem year_is_read_at_call (v0 : Z) (n : nat) (schedule : list Event) (i : nat)
    (r : jsstring) :
  calls (run schedule (startWith v0 n)) !! i = Some (Returned (Fulfilled r)) ->
  exists y v : Z, yearAtCall i schedule = Some y /\ r = bookingNumber y v.
Proof.
  intros Hret.
  assert (calls (startWith v0 n) !! i = Some NotCalled) as Hstart.
  { simpl. apply lookup_replicate_2.
    apply lookup_lt_Some in Hret. rewrite run_length in Hret. simpl in Hret.
    rewrite length_replicate in Hret. exact Hret. }
  pose proof (yearAtCall_run schedule _ i Hstart) as Hyear.
  destruct (yearAtCall i schedule) as [y|].
  - destruct Hyear as (s' & Hs' & Hy). rewrite Hret in Hs'. injection Hs' as <-.
    destruct Hy as [[doc|] Hc]; [|discriminate Hc].
    injection Hc as ->. exists y, (seq doc). auto.
  - rewrite Hret in Hyear. discriminate.
Qed.

Lemma year_is_read_at_call_witness :
  exists y v : Z,
    yearAtCall 0 [ {| ev_call := 0; ev_now := 2025 |}; {| ev_call := 0; ev_now := 2026 |};
                   {| ev_call := 0; ev_now := 2026 |} ] = Some y
    /\ lit "JY-2025-001001" = bookingNumber y v.
Proof.
  apply (year_is_read_at_call 1000 1
           [ {| ev_call := 0; ev_now := 2025 |}; {| ev_call := 0; ev_now := 2026 |};
             {| ev_call := 0; ev_now := 2026 |} ] 0).
  reflexivity.
Defined.
